(** * Plex.upgrade: the replacement-selection engine of plex_upgrade.py

    A shallow embedding of [check_quality_requirements], [artist], the
    candidate pipeline and the decision loops of [upgrade_playlist], and of
    the flag selection of the [__main__] block.

    Conventions of the embedding.
    - A Python [str] is a [string] holding its UTF-8 bytes: equality,
      substring search and lexicographic comparison by code point agree with
      the same operations on the bytes.
    - An attribute that plexapi fills with [attrib.get] is an [option]:
      [None] is Python's None.
    - A track is read through [item.media[0]] everywhere (also by every
      console line, through [audio_to_str]); the record keeps that first
      media entry as [media0].
    - Exceptions are values of [exn]; code that can raise returns a
      [result], code that also reads the keyboard, prints or calls the media
      server is a state transformer on [World] that keeps the world reached
      when an exception escapes.
    - What the Python runtime and plexapi provide and the script only calls
      ([str.casefold], [int], [re.sub] with the script's pattern, the library
      search and the effect of the two playlist mutations on a playlist's
      contents) is a field of the class [Externals]. *)

From Stdlib Require Import ZArith String Ascii Bool Lia.
From Stdlib Require OrderedTypeEx DecimalString DecimalZ.
From stdpp Require Import base option list strings sorting gmap.

Open Scope string_scope.
Open Scope list_scope.
Open Scope Z_scope.

(** ** Exceptions and results *)

Inductive exn : Type :=
| TypeError
| AttributeError
| EOFError
| NotFound
| ServerError.

Inductive result (A : Type) : Type :=
| Ok (a : A)
| Raise (e : exn).

Arguments Ok {A} a.
Arguments Raise {A} e.

Definition result_bind {A B} (r : result A) (f : A -> result B) : result B :=
  match r with
  | Ok a => f a
  | Raise e => Raise e
  end.

#[global] Instance result_ret : MRet result := @Ok.
#[global] Instance result_mbind : MBind result :=
  fun A B f r => result_bind r f.

(** ** Data model *)

Module Media.
Record t : Type := Build {
  audioCodec : option string;
  bitrate : option Z
}.
End Media.

Module Audio.
Record t : Type := Build {
  ratingKey : Z;
  title : string;
  originalTitle : option string;
  grandparentTitle : option string;
  media0 : Media.t
}.
End Audio.

Module Playlist.
Record t : Type := Build {
  title : string;
  summary : option string;
  playlistType : string;
  smart : bool;
  items : list Audio.t
}.
End Playlist.

(** The configuration file as [PlexConfig.get] reads it: a key is either
    absent or bound to a string. *)
Abbreviation PlexConfig := (gmap string string).

(** ** Python values used as conditions *)

(** [bool(x)] and [x or y], [x and y] on an optional string. *)
Definition truthy_str (x : option string) : bool :=
  match x with
  | None => false
  | Some "" => false
  | Some _ => true
  end.

(** Truth value of an optional integer: None and 0 are false. *)
Definition truthy_int (x : option Z) : bool :=
  match x with
  | None => false
  | Some n => negb (n =? 0)
  end.

(** [a < b] and [a > b] on integers that may be None: comparing None with an
    integer raises TypeError. *)
Definition int_lt (a b : option Z) : result bool :=
  match a, b with
  | Some x, Some y => Ok (x <? y)
  | _, _ => Raise TypeError
  end.

Definition int_gt (a b : option Z) : result bool := int_lt b a.

(** [s in t] for two strings: [s] occurs in [t] as a contiguous block. *)
Fixpoint str_in (s t : string) : bool :=
  String.prefix s t ||
  match t with
  | EmptyString => false
  | String _ t' => str_in s t'
  end.

(** [codec == name], where [codec] may be None. *)
Definition codec_eqb (codec : option string) (name : string) : bool :=
  bool_decide (codec = Some name).

(** ** QualityPolicy *)

(** [check_quality_requirements] (lines 222-248); the module-level [config]
    is passed in. *)
Definition check_quality_requirements (config : PlexConfig) (item : Audio.t)
  : result bool :=
  let m := Audio.media0 item in
  if truthy_str (config !! "upgrade.force_all") then Ok false
  else if truthy_str (config !! "upgrade.force_lossless") then
    Ok (bool_decide (Media.audioCodec m ∈ [Some "alac"; Some "flac"]))
  else
    low_mp3 ← (if codec_eqb (Media.audioCodec m) "mp3"
               then int_lt (Media.bitrate m) (Some 320) else Ok false);
    if (low_mp3 : bool) then Ok (negb true)
    else
      low_aac ← (if codec_eqb (Media.audioCodec m) "aac"
                 then int_lt (Media.bitrate m) (Some 256) else Ok false);
      Ok (negb low_aac).

(** The three modes of the quality requirement, as the two configuration
    keys select them: [force_all] wins over [force_lossless]. *)
Inductive QualityRequirement : Type :=
| force_all
| force_lossless
| default_mode.

Definition requirement (config : PlexConfig) : QualityRequirement :=
  if truthy_str (config !! "upgrade.force_all") then force_all
  else if truthy_str (config !! "upgrade.force_lossless") then force_lossless
  else default_mode.

(** ** What the script calls but does not define *)

Class Externals : Type := {
  (** [str.casefold] and [str.lower]. *)
  casefold : string -> string;
  lower : string -> string;
  (** [int(s)] on a string; [None] stands for ValueError. *)
  int : string -> option Z;
  (** [re.sub(r"[^\w\s]", "", s)]. *)
  re_sub_punctuation : string -> string;
  (** [server.library.search(title=..., artist=..., libtype="track")]. *)
  library_search : string -> string -> result (list Audio.t);
  (** The contents of a playlist after [removeItems(items)] and after
      [addItems(items)], from the items and the contents before. *)
  removeItems_contents : list Audio.t -> list Audio.t -> list Audio.t;
  addItems_contents : list Audio.t -> list Audio.t -> list Audio.t
}.

(** ** Lists the way Python reads them *)

(** [l[k]] with an integer index: negative indices count from the end;
    [None] stands for IndexError. *)
Definition getitem {A} (l : list A) (k : Z) : option A :=
  if 0 <=? k then l !! Z.to_nat k
  else if - Z.of_nat (length l) <=? k
       then l !! Z.to_nat (Z.of_nat (length l) + k)
       else None.

(** A list comprehension [[x for x in l if p(x)]] whose condition may
    raise: conditions are evaluated from left to right. *)
Fixpoint comprehension {A} (p : A -> result bool) (l : list A)
  : result (list A) :=
  match l with
  | [] => Ok []
  | x :: l' =>
      keep ← p x;
      rest ← comprehension p l';
      Ok (if (keep : bool) then x :: rest else rest)
  end.

(** [sorted(l, key=key, reverse=reverse)].  The sort is stable, also with
    [reverse=True]; a key that is None cannot be compared ([<] raises
    TypeError), and every element of a list of two or more is compared at
    least once. *)
Section sorted.
Context {A K : Type} (lt : K -> K -> bool) (key : A -> option K).

Definition key_lt (x y : A) : bool :=
  match key x, key y with
  | Some a, Some b => lt a b
  | _, _ => false
  end.

(** [x] comes from the left of every element of [l]: it stays in front of
    the elements it does not have to follow. *)
Fixpoint insert_sorted (reverse : bool) (x : A) (l : list A) : list A :=
  match l with
  | [] => [x]
  | y :: l' =>
      if (if reverse then key_lt x y else key_lt y x)
      then y :: insert_sorted reverse x l'
      else x :: l
  end.

Definition stable_sort (reverse : bool) (l : list A) : list A :=
  foldr (insert_sorted reverse) [] l.

(** [x] may stay in front of [y]: the test of [insert_sorted] fails. *)
Definition may_precede (reverse : bool) (x y : A) : Prop :=
  (if reverse then key_lt x y else key_lt y x) = false.

Definition sorted (reverse : bool) (l : list A) : result (list A) :=
  if (2 <=? length l)%nat && existsb (fun x => bool_decide (key x = None)) l
  then Raise TypeError
  else Ok (stable_sort reverse l).
End sorted.

(** ** CandidateFinder and CandidateRanker *)

(** [artist] (lines 77-90): [item.originalTitle or item.grandparentTitle]. *)
Definition artist (item : Audio.t) : option string :=
  if truthy_str (Audio.originalTitle item)
  then Audio.originalTitle item
  else Audio.grandparentTitle item.

Definition bitrate_of (item : Audio.t) : option Z :=
  Media.bitrate (Audio.media0 item).

(** The key of the first sort (lines 421-423): [originalTitle] unless it
    is None, else [grandparentTitle]. *)
Definition artist_sort_key (x : Audio.t) : option string :=
  match Audio.originalTitle x with
  | Some s => Some s
  | None => Audio.grandparentTitle x
  end.

(** The orders of the ranked list: by bitrate, greatest first; by the key
    of the first sort; by derived artist name. *)
Definition bitrate_ge (x y : Audio.t) : Prop :=
  exists bx by_, bitrate_of x = Some bx /\ bitrate_of y = Some by_ /\
                 by_ <= bx.

Definition artist_sort_key_le (x y : Audio.t) : Prop :=
  exists kx ky, artist_sort_key x = Some kx /\ artist_sort_key y = Some ky /\
                String.ltb ky kx = false.

Definition artist_le (x y : Audio.t) : Prop :=
  exists ax ay, artist x = Some ax /\ artist y = Some ay /\
                String.ltb ay ax = false.

Section ranking.
Context `{Externals}.

(** [s.casefold()] on a value that may be None. *)
Definition casefold_of (s : option string) : result string :=
  match s with
  | Some s => Ok (casefold s)
  | None => Raise AttributeError
  end.

(** [re.sub(pattern, "", s)] on a value that may be None. *)
Definition re_sub_of (s : option string) : result string :=
  match s with
  | Some s => Ok (re_sub_punctuation s)
  | None => Raise TypeError
  end.

(** Lines 406-410. *)
Definition search (item : Audio.t) : result (list Audio.t) :=
  title ← Ok (re_sub_punctuation (Audio.title item));
  artist ← re_sub_of (artist item);
  library_search title artist.

(** The condition of line 413:
    [r.media[0].bitrate and r.media[0].bitrate > item.media[0].bitrate]. *)
Definition higher_bitrate (item r : Audio.t) : result bool :=
  if truthy_int (bitrate_of r)
  then int_gt (bitrate_of r) (bitrate_of item)
  else Ok false.

(** The condition of line 416:
    [artist(item).casefold() in artist(r).casefold()]. *)
Definition artist_matches (item r : Audio.t) : result bool :=
  wanted ← casefold_of (artist item);
  found ← casefold_of (artist r);
  Ok (str_in wanted found).

(** Lines 413-425: from the search results to the ordered
    [replacements]. *)
Definition rank (item : Audio.t) (search_results : list Audio.t)
  : result (list Audio.t) :=
  replacements ← comprehension (higher_bitrate item) search_results;
  replacements ← comprehension (artist_matches item) replacements;
  replacements ← sorted String.ltb artist_sort_key false replacements;
  sorted Z.ltb bitrate_of true replacements.
End ranking.

(** ** The world: media server, keyboard and console *)

(** The calls that leave the process. *)
Inductive Call : Type :=
| Call_create (title : string) (summary : option string)
    (items : list Audio.t) (playlistType : string)
| Call_removeItems (playlist : nat) (items : list Audio.t)
| Call_addItems (playlist : nat) (items : list Audio.t)
| Call_subprocess_run (args : list string).

(** The messages of [upgrade_playlist], one constructor per [print]; a
    track stands for its [audio_to_str] rendering.  Blank lines and the
    prompts of [input] are not recorded. *)
Inductive Line : Type :=
| created (title : string)
| must_be_upgraded (item : Audio.t)
| will_be_used (replacement : Audio.t)
| no_potential_replacement
| choice (index : nat) (candidate : Audio.t)
| no_replacement_found
| no_replacement_selected
| meets_requirements (item : Audio.t)
| tracks_removed
| removed (item : Audio.t)
| tracks_added
| added (item : Audio.t)
| tracks_not_upgraded
| not_upgraded (item : Audio.t)
| upgraded (title : string)
| searching_for (query : string)
| done_downloading.

(** The world a run acts on: the playlists of the media server (a
    playlist object of the script is the index of its playlist in this
    list), the calls made so far, the lines still to be read by [input], and
    the lines printed so far. *)
Record World : Type := {
  playlists : list Playlist.t;
  calls : list Call;
  stdin : list string;
  stdout : list Line
}.

Definition set_playlists (f : list Playlist.t -> list Playlist.t) (w : World)
  : World :=
  {| playlists := f (playlists w); calls := calls w;
     stdin := stdin w; stdout := stdout w |}.

Definition add_call (c : Call) (w : World) : World :=
  {| playlists := playlists w; calls := calls w ++ [c];
     stdin := stdin w; stdout := stdout w |}.

Definition set_stdin (inp : list string) (w : World) : World :=
  {| playlists := playlists w; calls := calls w;
     stdin := inp; stdout := stdout w |}.

Definition add_stdout (out : list Line) (w : World) : World :=
  {| playlists := playlists w; calls := calls w;
     stdin := stdin w; stdout := stdout w ++ out |}.

(** Computations: the world is threaded, and kept when an exception
    escapes. *)
Definition M (A : Type) : Type := World -> World * result A.

#[global] Instance M_ret : MRet M := fun A a w => (w, Ok a).
#[global] Instance M_bind : MBind M := fun A B f m w =>
  match m w with
  | (w', Ok a) => f a w'
  | (w', Raise e) => (w', Raise e)
  end.

Definition lift {A} (r : result A) : M A := fun w => (w, r).

Definition print (l : Line) : M unit := fun w => (add_stdout [l] w, Ok tt).

(** [for x in l: body], with the variables the body assigns as [s]. *)
Fixpoint for_each {A S} (body : S -> A -> M S) (s : S) (l : list A) : M S :=
  match l with
  | [] => mret s
  | x :: l' => s' ← body s x; for_each body s' l'
  end.

(** [while True: s = input(...); body]: the body answers [Some a] when it
    leaves the loop with [a] and [None] when the loop goes round again;
    [input] raises EOFError at the end of the input. *)
Fixpoint input_loop_on {A} (body : string -> M (option A))
    (inp : list string) : M A :=
  fun w =>
  match inp with
  | [] => (w, Raise EOFError)
  | s :: rest =>
      match body s (set_stdin rest w) with
      | (w', Ok (Some a)) => (w', Ok a)
      | (w', Ok None) => input_loop_on body rest w'
      | (w', Raise e) => (w', Raise e)
      end
  end.

Definition input_loop {A} (body : string -> M (option A)) : M A :=
  fun w => input_loop_on body (stdin w) w.

(** [playlist.items()] together with the attributes of the object. *)
Definition fetch (playlist : nat) : M Playlist.t := fun w =>
  (w, match playlists w !! playlist with
      | Some pl => Ok pl
      | None => Raise NotFound
      end).

Definition subprocess_run (args : list string) : M unit := fun w =>
  (add_call (Call_subprocess_run args) w, Ok tt).

(** [Playlist.create]: the server stores a new playlist with what the
    call passes and answers its object. *)
Definition Playlist_create (title : string) (summary : option string)
    (items : list Audio.t) (playlistType : string) : M nat := fun w =>
  (add_call (Call_create title summary items playlistType)
     (set_playlists
        (fun pls =>
           (pls ++ [Playlist.Build title summary playlistType false items])%list)
        w),
   Ok (length (playlists w))).

Definition set_items (f : list Audio.t -> list Audio.t) (pl : Playlist.t)
  : Playlist.t :=
  Playlist.Build (Playlist.title pl) (Playlist.summary pl)
    (Playlist.playlistType pl) (Playlist.smart pl) (f (Playlist.items pl)).

(** The three lists [upgrade_playlist] fills while it scans. *)
Record Batch : Type := {
  items_to_remove : list Audio.t;
  items_to_add : list Audio.t;
  items_ommited : list Audio.t
}.

Definition no_items : Batch :=
  {| items_to_remove := []; items_to_add := []; items_ommited := [] |}.

(** [items_to_add.append(replacement); items_to_remove.append(item)]. *)
Definition append_replacement (item replacement : Audio.t) (b : Batch)
  : Batch :=
  {| items_to_remove := items_to_remove b ++ [item];
     items_to_add := items_to_add b ++ [replacement];
     items_ommited := items_ommited b |}.

(** [items_ommited.append(item)]. *)
Definition append_ommited (item : Audio.t) (b : Batch) : Batch :=
  {| items_to_remove := items_to_remove b;
     items_to_add := items_to_add b;
     items_ommited := items_ommited b ++ [item] |}.

(** [f"{x}"] for a string that may be None. *)
Definition format_str (x : option string) : string :=
  match x with
  | Some s => s
  | None => "None"
  end.

(** The lines printed for a track before the question of manual mode
    (lines 403 and 451-452). *)
Definition manual_lines (item : Audio.t) (replacements : list Audio.t)
  : list Line :=
  must_be_upgraded item :: imap choice replacements.

Section upgrade.
Context `{Externals}.

(** [playlist.removeItems(items)] and [playlist.addItems(items)]: the call
    is recorded and the server changes the contents of that playlist. *)
Definition removeItems (playlist : nat) (items : list Audio.t) : M unit :=
  fun w =>
  (add_call (Call_removeItems playlist items)
     (set_playlists (alter (set_items (removeItems_contents items)) playlist)
        w),
   Ok tt).

Definition addItems (playlist : nat) (items : list Audio.t) : M unit :=
  fun w =>
  (add_call (Call_addItems playlist items)
     (set_playlists (alter (set_items (addItems_contents items)) playlist)
        w),
   Ok tt).

(** [choose_continue] (lines 111-129). *)
Definition choose_continue : M bool :=
  input_loop (fun continue_upgrading =>
    if negb (truthy_str (Some continue_upgrading))
       || String.eqb (lower continue_upgrading) "y"
    then mret (Some true)
    else if String.eqb (lower continue_upgrading) "n"
    then mret (Some false)
    else mret None).

(** The body shared by [choose_duplication], [choose_dry_run],
    [choose_simple_replacement_mode] and [choose_spotdl_download], which
    differ in their prompt only. *)
Definition yes_or_default_no (answer : string) : M (option bool) :=
  if String.eqb (lower answer) "y"
  then mret (Some true)
  else if negb (truthy_str (Some answer)) || String.eqb (lower answer) "n"
  then mret (Some false)
  else mret None.

(** Lines 132-150. *)
Definition choose_duplication : M bool := input_loop yes_or_default_no.

(** Lines 153-171. *)
Definition choose_dry_run : M bool := input_loop yes_or_default_no.

(** Lines 174-194. *)
Definition choose_simple_replacement_mode : M bool :=
  input_loop yes_or_default_no.

(** Lines 197-219. *)
Definition choose_spotdl_download : M bool := input_loop yes_or_default_no.

(** The body of the [try] of lines 456-471, for one line of input: the
    selection is recorded and the loop left, or the loop is left with
    nothing selected (empty input), or ValueError or IndexError is caught
    and the loop goes round again. *)
Definition select_replacement (item : Audio.t) (replacements : list Audio.t)
    (b : Batch) (index : string) : M (option (Batch * bool)) :=
  if truthy_str (Some index) then
    match int index ≫= getitem replacements with
    | Some replacement =>
        let b := append_replacement item replacement b in
        let replacement_candidate := true in
        print (will_be_used replacement);;
        mret (Some (b, replacement_candidate))
    | None => mret None
    end
  else mret (Some (b, false)).

(** The body of the loop of lines 401-483, for one track. *)
Definition scan_item (config : PlexConfig) (simple_mode : bool)
    (b : Batch) (item : Audio.t) : M Batch :=
  meets ← lift (check_quality_requirements config item);
  if negb meets then
    print (must_be_upgraded item);;
    search_results ← lift (search item);
    replacements ← lift (rank item search_results);
    match replacements with
    | [] =>
        let b := append_ommited item b in
        print no_potential_replacement;;
        mret b
    | replacement :: _ =>
        if (simple_mode : bool) then
          print (will_be_used replacement);;
          mret (append_replacement item replacement b)
        else
          for_each (fun index candidate =>
                      print (choice index candidate);; mret (S index))
                   0%nat replacements;;
          '(b, replacement_candidate) ←
            input_loop (select_replacement item replacements b);
          if negb replacement_candidate then
            let b := append_ommited item b in
            print (if simple_mode then no_replacement_found
                   else no_replacement_selected);;
            mret b
          else mret b
    end
  else
    print (meets_requirements item);;
    mret b.

(** Lines 394-483: the scan of the playlist. *)
Definition scan (config : PlexConfig) (simple_mode : bool)
    (items : list Audio.t) : M Batch :=
  for_each (scan_item config simple_mode) no_items items.

Definition print_each (line : Audio.t -> Line) (items : list Audio.t)
  : M unit :=
  for_each (fun _ item => print (line item)) tt items.

(** Lines 516-529; the two [subprocess.run] calls are recorded, the
    directory changes around them are not. *)
Definition spotdl_download (items : list Audio.t) : M unit :=
  subprocess_run ["pip"; "install"; "spotdl"; "--upgrade"];;
  for_each (fun _ item =>
              let query := format_str (artist item) +:+ " - "
                           +:+ Audio.title item in
              print (searching_for query);;
              subprocess_run ["spotdl"; "download"; query])
           tt items;;
  print done_downloading.

(** Lines 489-529: what [upgrade_playlist] does after the scan when
    [dry] is false. *)
Definition commit (playlist : nat) (title : string) (b : Batch) : M unit :=
  (if negb (length (items_to_remove b) =? 0)%nat then
     removeItems playlist (items_to_remove b);;
     print tracks_removed;;
     print_each removed (items_to_remove b)
   else mret tt);;
  (if negb (length (items_to_add b) =? 0)%nat then
     addItems playlist (items_to_add b);;
     print tracks_added;;
     print_each added (items_to_add b)
   else mret tt);;
  (if negb (length (items_ommited b) =? 0)%nat then
     print tracks_not_upgraded;;
     print_each not_upgraded (items_ommited b)
   else mret tt);;
  print (upgraded title);;
  download ← choose_spotdl_download;
  if (download : bool) then spotdl_download (items_ommited b) else mret tt.

(** [upgrade_playlist] (lines 345-531). *)
Definition upgrade_playlist (config : PlexConfig) (playlist : nat)
    (duplicate simple_mode dry : bool) : M nat :=
  pl ← fetch playlist;
  '(playlist, pl) ←
    (if duplicate && negb dry then
       new_playlist ← Playlist_create ("Copy of " +:+ Playlist.title pl)
                        (Playlist.summary pl) (Playlist.items pl)
                        (Playlist.playlistType pl);
       new_pl ← fetch new_playlist;
       print (created (Playlist.title new_pl));;
       mret (new_playlist, new_pl)
     else mret (playlist, pl));
  b ← scan config simple_mode (Playlist.items pl);
  (if negb dry then commit playlist (Playlist.title pl) b else mret tt);;
  mret playlist.

(** Lines 553-570 of the [__main__] block: the three questions and the
    call, for the playlist that was selected. *)
Definition main_upgrade (config : PlexConfig) (playlist : nat) : M nat :=
  dry ← choose_dry_run;
  simple_mode ← (if (dry : bool) then mret true
                 else choose_simple_replacement_mode);
  duplicate ← (if dry then mret false else choose_duplication);
  upgrade_playlist config playlist duplicate simple_mode dry.
End upgrade.

(** ** An instance of the externals, and sample data

    On ASCII text the functions below are the Python ones: [str.lower] and
    [str.casefold] map the letters A-Z to a-z, [int] reads a signed decimal
    numeral, the substitution keeps letters, digits, the underscore and white
    space.  The sample server answers a search with the tracks of a catalog
    that bear the title, removes tracks by rating key and adds at the end. *)
Module Sample.

Definition code (c : ascii) : Z := Z.of_N (N_of_ascii c).

Definition ascii_lower (c : ascii) : ascii :=
  if (65 <=? code c) && (code c <=? 90)
  then ascii_of_N (Z.to_N (code c + 32))
  else c.

Fixpoint str_map (f : ascii -> ascii) (s : string) : string :=
  match s with
  | EmptyString => EmptyString
  | String c s' => String (f c) (str_map f s')
  end.

Fixpoint str_filter (p : ascii -> bool) (s : string) : string :=
  match s with
  | EmptyString => EmptyString
  | String c s' => if p c then String c (str_filter p s') else str_filter p s'
  end.

Definition str_lower (s : string) : string := str_map ascii_lower s.

Fixpoint digits (acc : Z) (s : string) : option Z :=
  match s with
  | EmptyString => Some acc
  | String c s' =>
      if (48 <=? code c) && (code c <=? 57)
      then digits (10 * acc + (code c - 48)) s'
      else None
  end.

Definition numeral (s : string) : option Z :=
  match s with
  | EmptyString => None
  | _ => digits 0 s
  end.

Definition decimal_int (s : string) : option Z :=
  match s with
  | String "-" s' => Z.opp <$> numeral s'
  | String "+" s' => numeral s'
  | _ => numeral s
  end.

Definition word_or_space (c : ascii) : bool :=
  let n := code c in
  (48 <=? n) && (n <=? 57) || (65 <=? n) && (n <=? 90)
  || (97 <=? n) && (n <=? 122) || (n =? 95)
  || (9 <=? n) && (n <=? 13) || (n =? 32) || (128 <=? n).

Definition strip (s : string) : string := str_filter word_or_space s.

Definition has_key (items : list Audio.t) (x : Audio.t) : bool :=
  existsb (fun y => Audio.ratingKey y =? Audio.ratingKey x) items.

Definition externals (catalog : list Audio.t) : Externals := {|
  casefold := str_lower;
  lower := str_lower;
  int := decimal_int;
  re_sub_punctuation := strip;
  library_search := fun title _ =>
    Ok (filter (fun r => String.eqb (strip (Audio.title r)) title = true)
          catalog);
  removeItems_contents := fun items contents =>
    filter (fun x => has_key items x = false) contents;
  addItems_contents := fun items contents => (contents ++ items)%list
|}.

Definition track (key : Z) (title : string) (originalTitle : option string)
    (grandparentTitle : string) (codec : string) (bitrate : Z) : Audio.t :=
  Audio.Build key title originalTitle (Some grandparentTitle)
    (Media.Build (Some codec) (Some bitrate)).

(** The track of the end-to-end scenario and the two answers of the
    catalog. *)
Definition song : Audio.t := track 1 "Song" None "Artist A" "mp3" 128.
Definition song_320 : Audio.t := track 2 "Song" None "Artist A" "mp3" 320.
Definition song_192 : Audio.t := track 3 "Song" None "Someone Else" "mp3" 192.

(** Further versions of the same song. *)
Definition song_feat : Audio.t :=
  track 4 "Song" (Some "Artist A feat. B") "Artist A" "mp3" 256.
Definition song_flac : Audio.t := track 5 "Song" None "Artist A" "flac" 900.
Definition song_untitled : Audio.t :=
  track 6 "Song" (Some "") "Artist A" "mp3" 320.
Definition song_live : Audio.t :=
  track 7 "Song" (Some "An Artist A Tribute") "Various" "mp3" 320.

Definition good : Audio.t := track 8 "Good" None "Artist B" "flac" 1000.

Definition catalog : list Audio.t :=
  [song; song_320; song_192; song_feat; song_flac; good].

Definition favorites : Playlist.t :=
  Playlist.Build "Favorites" (Some "my songs") "audio" false [song; good].

Definition world (inp : list string) : World :=
  {| playlists := [favorites]; calls := []; stdin := inp; stdout := [] |}.

Definition default_config : PlexConfig := ∅.
Definition lossless_config : PlexConfig := {[ "upgrade.force_lossless" := "1" ]}.
Definition all_config : PlexConfig := {[ "upgrade.force_all" := "1" ]}.
End Sample.

(** ** Decisions

    The outcome of the scan for one playlist entry. *)
Inductive UpgradeDecision : Type :=
| Kept
| Replaced (replacement : Audio.t)
| Omitted.

(** The three lists that a sequence of entries with their decisions
    stands for. *)
Definition removed_of (ds : list (Audio.t * UpgradeDecision)) : list Audio.t :=
  omap (fun d => match d.2 with Replaced _ => Some d.1 | _ => None end) ds.

Definition added_of (ds : list (Audio.t * UpgradeDecision)) : list Audio.t :=
  omap (fun d => match d.2 with Replaced r => Some r | _ => None end) ds.

Definition omitted_of (ds : list (Audio.t * UpgradeDecision)) : list Audio.t :=
  omap (fun d => match d.2 with Omitted => Some d.1 | _ => None end) ds.

Definition record_decision (item : Audio.t) (d : UpgradeDecision) (b : Batch)
  : Batch :=
  match d with
  | Kept => b
  | Replaced r => append_replacement item r b
  | Omitted => append_ommited item b
  end.

Section decisions.
Context `{Externals}.

(** [r] is a replacement the scan can choose for [item]: a ranked
    candidate, the first one in simple mode. *)
Definition chosen (config : PlexConfig) (simple_mode : bool)
    (item r : Audio.t) : Prop :=
  check_quality_requirements config item = Ok false /\
  exists search_results replacements,
    search item = Ok search_results /\
    rank item search_results = Ok replacements /\
    r ∈ replacements /\
    (simple_mode = true -> head replacements = Some r).

(** [item] can be left without a replacement: it fails the quality check
    and, in simple mode, has no ranked candidate. *)
Definition unreplaced (config : PlexConfig) (simple_mode : bool)
    (item : Audio.t) : Prop :=
  check_quality_requirements config item = Ok false /\
  exists search_results replacements,
    search item = Ok search_results /\
    rank item search_results = Ok replacements /\
    (simple_mode = true -> replacements = []).

Definition justified (config : PlexConfig) (simple_mode : bool)
    (item : Audio.t) (d : UpgradeDecision) : Prop :=
  match d with
  | Kept => check_quality_requirements config item = Ok true
  | Replaced r => chosen config simple_mode item r
  | Omitted => unreplaced config simple_mode item
  end.
End decisions.

(** The lines that report a decision as it is made (lines 403, 429, 438,
    467, 478, 480 and 483), and the decisions read back from the console. *)
Definition is_decision_line (l : Line) : bool :=
  match l with
  | must_be_upgraded _ | will_be_used _ | no_potential_replacement
  | no_replacement_found | no_replacement_selected | meets_requirements _ =>
      true
  | _ => false
  end.

Definition decision_report (out : list Line) : list Line :=
  filter (fun l => is_decision_line l = true) out.

Fixpoint read_decisions (pending : option Audio.t) (report : list Line)
  : list (Audio.t * UpgradeDecision) :=
  match report with
  | [] => []
  | meets_requirements item :: report' =>
      (item, Kept) :: read_decisions None report'
  | must_be_upgraded item :: report' => read_decisions (Some item) report'
  | will_be_used r :: report' =>
      match pending with
      | Some item => (item, Replaced r) :: read_decisions None report'
      | None => read_decisions None report'
      end
  | no_potential_replacement :: report'
  | no_replacement_found :: report'
  | no_replacement_selected :: report' =>
      match pending with
      | Some item => (item, Omitted) :: read_decisions None report'
      | None => read_decisions None report'
      end
  | _ :: report' => read_decisions pending report'
  end.

Definition classification (out : list Line) : list (Audio.t * UpgradeDecision) :=
  read_decisions None (decision_report out).

(** ** Footprints *)

(** Every run of [m] takes the world to a world related to it by [R]. *)
Definition stable (R : relation World) {A} (m : M A) : Prop :=
  forall w, R w (m w).1.

(** [f] reads the same in both worlds. *)
Definition unchanged {X} (f : World -> X) : relation World :=
  fun w w' => f w' = f w.

(** The calls made from [w] to [w'] all satisfy [P]. *)
Definition calls_added (P : Call -> Prop) : relation World :=
  fun w w' => exists cs : list Call, calls w' = (calls w ++ cs)%list /\ Forall P cs.

(** [m] reads the keyboard and writes to the console, and does nothing
    else: from two worlds with the same input it consumes the same input,
    prints the same lines and gives the same result, whatever the rest of the
    worlds. *)
Definition keyboard_and_console {A} (m : M A) : Prop :=
  forall w1 w2, stdin w1 = stdin w2 ->
    exists inp out r,
      m w1 = (add_stdout out (set_stdin inp w1), r) /\
      m w2 = (add_stdout out (set_stdin inp w2), r).

(** A call that changes a playlist changes playlist [n]. *)
Definition changes_only (n : nat) (c : Call) : Prop :=
  match c with
  | Call_create _ _ _ _ => False
  | Call_removeItems playlist _ | Call_addItems playlist _ => playlist = n
  | Call_subprocess_run _ => True
  end.

(** The attributes of a playlist, without its contents. *)
Definition attributes (pl : Playlist.t) : Playlist.t :=
  set_items (fun _ => []) pl.

(** ** The rest of the script *)

(** [str(n)] for an integer: its decimal numeral, with a minus sign below
    zero. *)
Definition str_int (n : Z) : string :=
  DecimalString.NilZero.string_of_int (Z.to_int n).

Fixpoint zeros (n : nat) : string :=
  match n with
  | O => ""
  | S n' => String "0" (zeros n')
  end.

(** [f"{n:0wd}"] for the width [w]: zeros are filled in after the sign
    until the text has [w] characters. *)
Definition format_0d (width : nat) (n : Z) : string :=
  if n <? 0 then
    let digits := str_int (- n) in
    "-" +:+ zeros (width - 1 - String.length digits) +:+ digits
  else
    let digits := str_int n in
    zeros (width - String.length digits) +:+ digits.

(** [divmod(a, b)]; the script divides by 1000 and by 60, where Python's
    floor division is [Z.div] and [Z.modulo]. *)
Definition divmod (a b : Z) : Z * Z := (a / b, a mod b).

(** [duration_to_str] (lines 60-74). *)
Definition duration_to_str (duration : Z) : string :=
  let '(seconds, milliseconds) := divmod duration 1000 in
  let '(minutes, seconds) := divmod seconds 60 in
  format_0d 2 minutes +:+ ":" +:+ format_0d 2 seconds.

(** The number a decimal numeral stands for, with or without zeros in
    front: what [int] reads back from the text of [format_0d]. *)
Definition digits_value (s : string) : Z :=
  match DecimalString.NilEmpty.uint_of_string s with
  | Some d => Z.of_uint d
  | None => 0
  end.

Definition numeral_value (s : string) : Z :=
  match s with
  | String "-" s' => - digits_value s'
  | _ => digits_value s
  end.

(** ** Logging in *)

(** What [MyPlexAccount(...)] raises: [Unauthorized], or any other
    exception. *)
Inductive LoginFailure : Type := Unauthorized | OtherFailure.

(** The constructor of plexapi's [MyPlexAccount], with a token and with a
    user name and a password, and the token of the account it answers. *)
Class MyPlex : Type := {
  Account : Type;
  authenticationToken : Account -> string;
  MyPlexAccount_token : string -> LoginFailure + Account;
  MyPlexAccount : string -> string -> LoginFailure + Account
}.

(** The lines [get_account] prints. *)
Inductive LoginLine : Type :=
| invalid_token
| your_authentication_token (token : string)
| invalid_login
| please_try_again
| provide_credentials.

(** The line of each [except] clause of lines 277-280 and 290-293. *)
Definition failure_line (failure : LoginFailure) : LoginLine :=
  match failure with
  | Unauthorized => invalid_login
  | OtherFailure => please_try_again
  end.

Section login.
Context `{MyPlex}.

(** Lines 266-270: the token of the configuration, if there is one. *)
Definition token_login (config : PlexConfig)
  : list LoginLine * option Account :=
  match config !! "auth.server_token" with
  | Some token =>
      if truthy_str (Some token) then
        match MyPlexAccount_token token with
        | inr account => ([], Some account)
        | inl _ => ([invalid_token], None)
        end
      else ([], None)
  | None => ([], None)
  end.

(** The [try] of lines 273-280 and 288-293. *)
Definition login (username password : string)
  : list LoginLine * option Account :=
  match MyPlexAccount username password with
  | inr account =>
      ([your_authentication_token (authenticationToken account)],
       Some account)
  | inl failure => ([failure_line failure], None)
  end.

(** Lines 272-280: the user name and the password of the configuration,
    if both are there. *)
Definition stored_login (config : PlexConfig)
  : list LoginLine * option Account :=
  match config !! "auth.myplex_username", config !! "auth.myplex_password" with
  | Some username, Some password =>
      if truthy_str (Some username) && truthy_str (Some password)
      then login username password
      else ([], None)
  | _, _ => ([], None)
  end.

(** Lines 282-293: the loop asks for a user name and a password, which
    are the next two lines of the input, until a login succeeds; at the end
    of the input [input] or [getpass] raises EOFError. *)
Fixpoint prompt_login (inp : list string)
  : list string * list LoginLine * result Account :=
  match inp with
  | username :: password :: rest =>
      match login username password with
      | (out, Some account) => (rest, provide_credentials :: out, Ok account)
      | (out, None) =>
          let '(rest', out', r) := prompt_login rest in
          (rest', provide_credentials :: out ++ out', r)
      end
  | _ => ([], [provide_credentials], Raise EOFError)
  end.

(** [get_account] (lines 251-293): what is left of the input, the lines
    printed, and the account or the exception. *)
Definition get_account (config : PlexConfig) (inp : list string)
  : list string * list LoginLine * result Account :=
  match token_login config with
  | (out, Some account) => (inp, out, Ok account)
  | (out, None) =>
      match stored_login config with
      | (out', Some account) => (inp, out ++ out', Ok account)
      | (out', None) =>
          let '(rest, out'', r) := prompt_login inp in
          (rest, out ++ out' ++ out'', r)
      end
  end.
End login.

(** A server with one user. *)
Definition one_user : MyPlex := {|
  Account := string;
  authenticationToken := fun name => "token of " +:+ name;
  MyPlexAccount_token := fun token =>
    if String.eqb token "token of alice" then inr "alice"
    else inl OtherFailure;
  MyPlexAccount := fun username password =>
    if String.eqb username "alice" && String.eqb password "secret"
    then inr "alice"
    else inl Unauthorized
|}.



(** A call that is a [subprocess.run]. *)
Definition is_subprocess_run (c : Call) : Prop :=
  match c with
  | Call_subprocess_run _ => True
  | _ => False
  end.

(** The two [subprocess.run] calls of lines 518 and 525. *)
Definition pip_install_call : Call :=
  Call_subprocess_run ["pip"; "install"; "spotdl"; "--upgrade"].

Definition spotdl_call (item : Audio.t) : Call :=
  Call_subprocess_run
    ["spotdl"; "download";
     format_str (artist item) +:+ " - " +:+ Audio.title item].



(** A track whose bitrate the server does not know, in a playlist of its
    own. *)
Definition tape : Audio.t :=
  Audio.Build 9 "Tape" None (Some "Artist C") (Media.Build (Some "mp3") None).

Definition tapes : Playlist.t :=
  Playlist.Build "Tapes" None "audio" false [Sample.song; tape].

Definition tape_world (inp : list string) : World :=
  {| playlists := [tapes]; calls := []; stdin := inp; stdout := [] |}.

#[global] Instance exn_eq_dec : EqDecision exn.
Proof. solve_decision. Defined.

#[global] Instance result_eq_dec {A} `{EqDecision A} : EqDecision (result A).
Proof. solve_decision. Defined.

(** * Theorems *)

(** ** Theorems: QualityPolicy *)

Lemma requirement_force_all config :
  requirement config = force_all ->
  truthy_str (config !! "upgrade.force_all") = true.
Proof.
  unfold requirement.
  destruct (truthy_str (config !! "upgrade.force_all")); [done|].
  destruct (truthy_str (config !! "upgrade.force_lossless")); discriminate.
Qed.

Lemma requirement_force_lossless config :
  requirement config = force_lossless ->
  truthy_str (config !! "upgrade.force_all") = false /\
  truthy_str (config !! "upgrade.force_lossless") = true.
Proof.
  unfold requirement.
  destruct (truthy_str (config !! "upgrade.force_all")); [discriminate|].
  destruct (truthy_str (config !! "upgrade.force_lossless")); [done|discriminate].
Qed.

Lemma requirement_default config :
  requirement config = default_mode ->
  truthy_str (config !! "upgrade.force_all") = false /\
  truthy_str (config !! "upgrade.force_lossless") = false.
Proof.
  unfold requirement.
  destruct (truthy_str (config !! "upgrade.force_all")); [discriminate|].
  destruct (truthy_str (config !! "upgrade.force_lossless")); [discriminate|done].
Qed.

(** C1. In force_all mode the check answers false for every track.  In
    force_lossless mode it answers true exactly for the codecs alac and flac.
    In default mode a track whose codec is neither mp3 nor aac passes at any
    bitrate (also with no bitrate at all); an mp3 track with bitrate [b]
    passes exactly when [320 <= b], an aac track exactly when [256 <= b]; in
    particular mp3 at 320 and aac at 256 pass, mp3 at 319 and aac at 255
    fail. *)
Theorem C1_check_quality_requirements (config : PlexConfig) (item : Audio.t) :
  let codec := Media.audioCodec (Audio.media0 item) in
  let rate := Media.bitrate (Audio.media0 item) in
  (requirement config = force_all ->
     check_quality_requirements config item = Ok false) /\
  (requirement config = force_lossless ->
     exists ok, check_quality_requirements config item = Ok ok /\
       (ok = true <-> codec = Some "alac" \/ codec = Some "flac")) /\
  (requirement config = default_mode ->
     (codec <> Some "mp3" -> codec <> Some "aac" ->
        check_quality_requirements config item = Ok true) /\
     (forall b, rate = Some b ->
        exists ok, check_quality_requirements config item = Ok ok /\
          (ok = true <->
           ~ ((codec = Some "mp3" /\ b < 320) \/
              (codec = Some "aac" /\ b < 256)))) /\
     (codec = Some "mp3" -> rate = Some 320 ->
        check_quality_requirements config item = Ok true) /\
     (codec = Some "mp3" -> rate = Some 319 ->
        check_quality_requirements config item = Ok false) /\
     (codec = Some "aac" -> rate = Some 256 ->
        check_quality_requirements config item = Ok true) /\
     (codec = Some "aac" -> rate = Some 255 ->
        check_quality_requirements config item = Ok false)).
Proof.
  intros codec rate. unfold check_quality_requirements.
  fold codec rate. split; [|split].
  - intros Hm. by rewrite (requirement_force_all _ Hm).
  - intros Hm. destruct (requirement_force_lossless _ Hm) as [-> ->].
    eexists; split; [reflexivity|].
    rewrite bool_decide_eq_true.
    rewrite !elem_of_cons, elem_of_nil. tauto.
  - intros Hm. destruct (requirement_default _ Hm) as [-> ->].
    unfold codec_eqb.
    repeat split.
    + intros H1 H2. rewrite !bool_decide_eq_false_2 by done. reflexivity.
    + intros b Hb. rewrite Hb. cbn.
      destruct (decide (codec = Some "mp3")) as [E1|E1].
      * rewrite (bool_decide_eq_true_2 _ E1). cbn.
        destruct (Z.ltb_spec b 320) as [Hlt|Hge]; cbn.
        -- eexists; split; [reflexivity|]. split; [discriminate|].
           intros H; exfalso; apply H; left; done.
        -- rewrite bool_decide_eq_false_2 by (rewrite E1; discriminate).
           cbn. eexists; split; [reflexivity|]. split; [|done].
           intros _ [[_ H]|[H _]]; [lia|]. rewrite E1 in H; discriminate.
      * rewrite (bool_decide_eq_false_2 _ E1). cbn.
        destruct (decide (codec = Some "aac")) as [E2|E2].
        -- rewrite (bool_decide_eq_true_2 _ E2). cbn.
           destruct (Z.ltb_spec b 256) as [Hlt|Hge]; cbn.
           ++ eexists; split; [reflexivity|]. split; [discriminate|].
              intros H; exfalso; apply H; right; done.
           ++ eexists; split; [reflexivity|]. split; [|done].
              intros _ [[H _]|[_ H]]; [done|lia].
        -- rewrite (bool_decide_eq_false_2 _ E2). cbn.
           eexists; split; [reflexivity|]. split; [|done].
           intros _ [[H _]|[H _]]; done.
    + intros -> ->. reflexivity.
    + intros -> ->. reflexivity.
    + intros -> ->. reflexivity.
    + intros -> ->. reflexivity.
Qed.


(** ** Results *)

Lemma result_bind_Ok {A B} (r : result A) (f : A -> result B) (b : B) :
  r ≫= f = Ok b <-> exists a, r = Ok a /\ f a = Ok b.
Proof.
  destruct r as [a|e]; cbn; split.
  - eauto.
  - by intros (a' & [= <-] & Hf).
  - discriminate.
  - by intros (a' & [=] & _).
Qed.

Ltac inv_bind H :=
  repeat match type of H with
  | _ ≫= _ = Ok _ =>
      let a := fresh "a" in
      let Ha := fresh "Ha" in
      apply result_bind_Ok in H as (a & Ha & H)
  end.

(** ** Strings *)

Lemma prefix_spec (s t : string) :
  String.prefix s t = true <-> exists post, t = s +:+ post.
Proof.
  revert t. induction s as [|a s IH]; intros [|b t]; cbn.
  - split; [by exists ""|done].
  - split; [by exists (String b t)|done].
  - split; [done|by intros (post & [=])].
  - destruct (ascii_dec a b) as [->|Hne].
    + rewrite IH. split; intros (post & Hp); exists post.
      * change (String b t = String b (s +:+ post)). by rewrite Hp.
      * change (String b t = String b (s +:+ post)) in Hp. by injection Hp.
    + split; [done|]. intros (post & [= <- _]). done.
Qed.

Lemma str_in_prefix (s t : string) :
  String.prefix s t = true -> str_in s t = true.
Proof. intros Hp. destruct t; cbn [str_in]; by rewrite Hp. Qed.

Lemma str_in_spec (s t : string) :
  str_in s t = true <-> exists pre post, t = pre +:+ s +:+ post.
Proof.
  split.
  - induction t as [|c t IH]; cbn [str_in]; rewrite orb_true_iff.
    + intros [Hp|[=]]. apply prefix_spec in Hp as (post & ->). by exists "", post.
    + intros [Hp|Hin].
      * apply prefix_spec in Hp as (post & ->). by exists "", post.
      * destruct (IH Hin) as (pre & post & ->). by exists (String c pre), post.
  - intros (pre & post & ->). induction pre as [|c pre IH].
    + change (str_in s (s +:+ post) = true).
      apply str_in_prefix, prefix_spec. eauto.
    + change (str_in s (String c (pre +:+ s +:+ post)) = true).
      cbn [str_in]. rewrite IH. apply orb_true_r.
Qed.

(** ** List comprehensions and [sorted] *)

Lemma comprehension_elem {A} (p : A -> result bool) (l l' : list A) :
  comprehension p l = Ok l' ->
  forall x, x ∈ l' -> x ∈ l /\ p x = Ok true.
Proof.
  revert l'. induction l as [|y l IH]; intros l' Hc x Hx; cbn in Hc.
  - injection Hc as <-. by apply elem_of_nil in Hx.
  - inv_bind Hc. injection Hc as <-.
    destruct a as [|].
    + apply elem_of_cons in Hx as [->|Hx].
      * split; [left|done].
      * destruct (IH _ Ha0 _ Hx). split; [by right|done].
    + destruct (IH _ Ha0 _ Hx). split; [by right|done].
Qed.

Lemma comprehension_keeps {A} (p : A -> result bool) (l l' : list A) :
  comprehension p l = Ok l' ->
  forall x, x ∈ l -> p x = Ok true -> x ∈ l'.
Proof.
  revert l'. induction l as [|y l IH]; intros l' Hc x Hx Hp; cbn in Hc.
  - by apply elem_of_nil in Hx.
  - inv_bind Hc. injection Hc as <-.
    apply elem_of_cons in Hx as [->|Hx].
    + rewrite Hp in Ha. injection Ha as <-. left.
    + destruct a; [right|]; eauto.
Qed.

Section sorted_facts.
Context {A K : Type} (lt : K -> K -> bool) (key : A -> option K).

Lemma insert_sorted_perm reverse x (l : list A) :
  insert_sorted lt key reverse x l ≡ₚ x :: l.
Proof.
  induction l as [|y l IH]; cbn; [done|].
  destruct (if reverse then _ else _); [|done].
  rewrite IH. apply Permutation_swap.
Qed.

Lemma stable_sort_perm reverse (l : list A) :
  stable_sort lt key reverse l ≡ₚ l.
Proof.
  induction l as [|x l IH]; cbn; [done|].
  fold (stable_sort lt key reverse l).
  by rewrite insert_sorted_perm, IH.
Qed.

Lemma sorted_Ok reverse (l l' : list A) :
  sorted lt key reverse l = Ok l' -> l' = stable_sort lt key reverse l.
Proof. unfold sorted. by destruct (_ && _); intros [=]. Qed.

Lemma sorted_perm reverse (l l' : list A) :
  sorted lt key reverse l = Ok l' -> l' ≡ₚ l.
Proof. intros ->%sorted_Ok. apply stable_sort_perm. Qed.
End sorted_facts.

(** ** The ranked candidates *)

Section ranking_facts.
Context `{Externals}.

(** Every ranked candidate is a search result that passed both
    conditions. *)
Lemma rank_elem (item : Audio.t) (search_results out : list Audio.t) :
  rank item search_results = Ok out ->
  forall r, r ∈ out ->
    r ∈ search_results /\
    higher_bitrate item r = Ok true /\
    artist_matches item r = Ok true.
Proof.
  unfold rank. intros Hr r Hin. inv_bind Hr.
  apply sorted_perm in Hr. apply sorted_perm in Ha1.
  rewrite Hr, Ha1 in Hin.
  destruct (comprehension_elem _ _ _ Ha0 _ Hin) as [Hin1 Hart].
  destruct (comprehension_elem _ _ _ Ha _ Hin1) as [Hin0 Hrate].
  done.
Qed.

Lemma higher_bitrate_true (item r : Audio.t) :
  higher_bitrate item r = Ok true ->
  exists b b0, bitrate_of r = Some b /\ bitrate_of item = Some b0 /\
               b <> 0 /\ b0 < b.
Proof.
  unfold higher_bitrate, truthy_int, int_gt, int_lt.
  destruct (bitrate_of r) as [b|]; [|discriminate].
  destruct (Z.eqb_spec b 0) as [->|Hb]; cbn; [discriminate|].
  destruct (bitrate_of item) as [b0|]; [|discriminate].
  intros [= Hlt%Z.ltb_lt]. by exists b, b0.
Qed.

Lemma artist_matches_true (item r : Audio.t) :
  artist_matches item r = Ok true ->
  exists a a', artist item = Some a /\ artist r = Some a' /\
               str_in (casefold a) (casefold a') = true.
Proof.
  unfold artist_matches, casefold_of.
  destruct (artist item) as [a|]; [|discriminate].
  destruct (artist r) as [a'|]; [|discriminate].
  cbn. intros [= Hin]. by exists a, a'.
Qed.
End ranking_facts.

(** ** The order of the ranked candidates *)

Section sorted_order.
Context {A K : Type} `{EqDecision K} (lt : K -> K -> bool) (key : A -> option K).
Hypothesis lt_irrefl : forall a, lt a a = false.
Hypothesis lt_asym : forall a b, lt a b = true -> lt b a = false.
Hypothesis lt_negtrans :
  forall a b c, lt a b = false -> lt b c = false -> lt a c = false.

Lemma may_precede_trans reverse (x y z : A) :
  is_Some (key y) ->
  may_precede lt key reverse x y -> may_precede lt key reverse y z ->
  may_precede lt key reverse x z.
Proof using lt_negtrans.
  unfold may_precede, key_lt. intros [ky ->].
  destruct reverse, (key x) as [kx|], (key z) as [kz|]; try done; eauto.
Qed.

Lemma may_precede_swap reverse (x y : A) :
  ~ may_precede lt key reverse x y -> may_precede lt key reverse y x.
Proof using lt_asym.
  unfold may_precede, key_lt.
  destruct reverse, (key x) as [kx|], (key y) as [ky|]; try done;
    intros Hxy; apply lt_asym; by destruct (lt _ _).
Qed.

Lemma insert_sorted_sorted reverse (x : A) (l : list A) :
  Forall (fun y => is_Some (key y)) l ->
  StronglySorted (may_precede lt key reverse) l ->
  StronglySorted (may_precede lt key reverse) (insert_sorted lt key reverse x l).
Proof using lt_asym lt_negtrans.
  intros Hkeys Hsorted. induction Hsorted as [|y l Hsorted IH Hy]; cbn.
  - repeat constructor.
  - apply Forall_cons in Hkeys as [Hky Hkeys].
    destruct (if reverse then _ else _) eqn:Htest.
    + constructor; [by apply IH|].
      rewrite insert_sorted_perm. constructor; [|done].
      apply may_precede_swap. unfold may_precede. by rewrite Htest.
    + constructor; [by constructor|].
      constructor; [done|].
      eapply Forall_impl; [exact Hy|]. intros z Hz.
      by apply (may_precede_trans reverse x y z).
Qed.

Lemma stable_sort_sorted reverse (l : list A) :
  Forall (fun y => is_Some (key y)) l ->
  StronglySorted (may_precede lt key reverse) (stable_sort lt key reverse l).
Proof using lt_asym lt_negtrans.
  induction l as [|x l IH]; cbn; [constructor|].
  intros [Hx Hl]%Forall_cons. fold (stable_sort lt key reverse l).
  apply insert_sorted_sorted; [|by apply IH].
  by rewrite stable_sort_perm.
Qed.

(** Stability: the elements with a given key keep their order. *)
Lemma insert_sorted_stable reverse (k : K) (x : A) (l : list A) :
  filter (fun y => key y = Some k) (insert_sorted lt key reverse x l)
  = filter (fun y => key y = Some k) (x :: l).
Proof using lt_irrefl.
  induction l as [|y l IH]; cbn [insert_sorted]; [done|].
  destruct (if reverse then _ else _) eqn:Htest; [|done].
  rewrite filter_cons, IH, !(filter_cons _ x), (filter_cons _ y).
  destruct (decide (key y = Some k)) as [Hy|Hy],
           (decide (key x = Some k)) as [Hx|Hx]; try done.
  unfold key_lt in Htest. rewrite Hx, Hy, lt_irrefl in Htest.
  by destruct reverse.
Qed.

Lemma stable_sort_stable reverse (k : K) (l : list A) :
  filter (fun y => key y = Some k) (stable_sort lt key reverse l)
  = filter (fun y => key y = Some k) l.
Proof using lt_irrefl.
  induction l as [|x l IH]; cbn; [done|].
  fold (stable_sort lt key reverse l).
  by rewrite insert_sorted_stable, !filter_cons, IH.
Qed.
End sorted_order.

Lemma StronglySorted_filter {A} (R : relation A) (P : A -> Prop)
    `{forall x, Decision (P x)} (l : list A) :
  StronglySorted R l -> StronglySorted R (filter P l).
Proof.
  induction 1 as [|x l Hsorted IH Hx]; [constructor|].
  rewrite filter_cons. destruct (decide (P x)); [|done].
  constructor; [done|].
  apply Forall_forall. intros y [_ Hy]%list_elem_of_filter.
  by eapply Forall_forall in Hx.
Qed.

Lemma StronglySorted_impl_elem {A} (R R' : relation A) (l : list A) :
  (forall x y, x ∈ l -> y ∈ l -> R x y -> R' x y) ->
  StronglySorted R l -> StronglySorted R' l.
Proof.
  intros Himpl Hsorted. induction Hsorted as [|x l Hsorted IH Hx].
  - constructor.
  - constructor.
    + apply IH. intros y z Hy Hz. apply Himpl; by right.
    + apply Forall_forall. intros y Hy. apply Himpl; [left|by right|].
      by eapply Forall_forall in Hx.
Qed.

Lemma String_ltb_irrefl (a : string) : String.ltb a a = false.
Proof.
  unfold String.ltb.
  pose proof (proj2 (OrderedTypeEx.String_as_OT.cmp_eq a a) eq_refl) as Heq.
  unfold OrderedTypeEx.String_as_OT.cmp in Heq. by rewrite Heq.
Qed.

Lemma String_ltb_asym (a b : string) :
  String.ltb a b = true -> String.ltb b a = false.
Proof.
  unfold String.ltb. rewrite (String.compare_antisym a b).
  by destruct (String.compare b a).
Qed.

Lemma String_ltb_negtrans (a b c : string) :
  String.ltb a b = false -> String.ltb b c = false -> String.ltb a c = false.
Proof.
  unfold String.ltb. intros Hab Hbc.
  destruct (String.compare a c) eqn:Hac; try done. exfalso.
  destruct (String.compare a b) eqn:Eab; [|done|].
  - apply String.compare_eq_iff in Eab as ->. by rewrite Hac in Hbc.
  - assert (String.compare b a = Lt) as Hba
      by (by rewrite String.compare_antisym, Eab).
    apply OrderedTypeEx.String_as_OT.cmp_lt in Hba, Hac.
    pose proof (OrderedTypeEx.String_as_OT.lt_trans _ _ _ Hba Hac) as Hlt.
    apply OrderedTypeEx.String_as_OT.cmp_lt in Hlt.
    unfold OrderedTypeEx.String_as_OT.cmp in Hlt. by rewrite Hlt in Hbc.
Qed.

Section rank_order.
Context `{Externals}.

Lemma rank_steps (item : Audio.t) (search_results out : list Audio.t) :
  rank item search_results = Ok out ->
  exists l,
    (forall r, r ∈ l ->
       r ∈ search_results /\ higher_bitrate item r = Ok true /\
       artist_matches item r = Ok true) /\
    out = stable_sort Z.ltb bitrate_of true
            (stable_sort String.ltb artist_sort_key false l).
Proof.
  unfold rank. intros Hr. inv_bind Hr.
  apply sorted_Ok in Hr, Ha1. subst. exists a0. split; [|done].
  intros r Hin.
  destruct (comprehension_elem _ _ _ Ha0 _ Hin) as [Hin1 Hart].
  by destruct (comprehension_elem _ _ _ Ha _ Hin1) as [Hin0 Hrate].
Qed.

Lemma artist_sort_key_Some (r : Audio.t) (a : string) :
  artist r = Some a -> is_Some (artist_sort_key r).
Proof.
  unfold artist, artist_sort_key.
  destruct (Audio.originalTitle r) as [s|]; cbn; eauto.
Qed.

Lemma artist_sort_key_artist (r : Audio.t) :
  Audio.originalTitle r <> Some "" -> artist_sort_key r = artist r.
Proof.
  unfold artist, artist_sort_key.
  destruct (Audio.originalTitle r) as [[|c s]|]; done.
Qed.

(** The ranked list is in descending order of bitrate. *)
Lemma rank_descending (item : Audio.t) (search_results out : list Audio.t) :
  rank item search_results = Ok out -> StronglySorted bitrate_ge out.
Proof.
  intros (l & Hl & ->)%rank_steps.
  set (l' := stable_sort String.ltb artist_sort_key false l).
  assert (forall r, r ∈ l' -> is_Some (bitrate_of r)) as Hkeys.
  { intros r Hin. unfold l' in Hin. rewrite stable_sort_perm in Hin.
    destruct (Hl r Hin) as (_ & Hrate & _).
    apply higher_bitrate_true in Hrate as (b & _ & -> & _). eauto. }
  eapply StronglySorted_impl_elem; cycle 1.
  - apply stable_sort_sorted.
    + intros a b Hab. apply Z.ltb_lt in Hab. apply Z.ltb_ge. lia.
    + intros a b c Hab Hbc. apply Z.ltb_ge in Hab, Hbc. apply Z.ltb_ge. lia.
    + by apply Forall_forall.
  - intros x y Hx Hy. rewrite stable_sort_perm in Hx, Hy.
    destruct (Hkeys x Hx) as [bx Hbx], (Hkeys y Hy) as [by_ Hby].
    unfold may_precede, key_lt. rewrite Hbx, Hby. intros Hlt%Z.ltb_ge.
    by exists bx, by_.
Qed.

(** Among the candidates of one bitrate the order is ascending in the key
    of the first sort. *)
Lemma rank_ties (item : Audio.t) (search_results out : list Audio.t) (b : Z) :
  rank item search_results = Ok out ->
  StronglySorted artist_sort_key_le
    (filter (fun r => bitrate_of r = Some b) out).
Proof.
  intros (l & Hl & ->)%rank_steps.
  rewrite stable_sort_stable by apply Z.ltb_irrefl.
  assert (forall r, r ∈ l -> is_Some (artist_sort_key r)) as Hkeys.
  { intros r Hin. destruct (Hl r Hin) as (_ & _ & Hart).
    apply artist_matches_true in Hart as (a & a' & _ & Ha' & _).
    by eapply artist_sort_key_Some. }
  apply StronglySorted_filter.
  eapply StronglySorted_impl_elem; cycle 1.
  - apply stable_sort_sorted.
    + apply String_ltb_asym.
    + apply String_ltb_negtrans.
    + by apply Forall_forall.
  - intros x y Hx Hy. rewrite stable_sort_perm in Hx, Hy.
    destruct (Hkeys x Hx) as [kx Hkx], (Hkeys y Hy) as [ky Hky].
    unfold may_precede, key_lt. rewrite Hkx, Hky. intros Hlt.
    by exists kx, ky.
Qed.

(** That key is the derived artist name unless [originalTitle] is the
    empty string: when no search result has an empty [originalTitle], the
    candidates of one bitrate are in ascending order of derived artist
    name. *)
Lemma rank_ties_artist (item : Audio.t) (search_results out : list Audio.t)
    (b : Z) :
  (forall r, r ∈ search_results -> Audio.originalTitle r <> Some "") ->
  rank item search_results = Ok out ->
  StronglySorted artist_le (filter (fun r => bitrate_of r = Some b) out).
Proof.
  intros Htitled Hrank.
  eapply StronglySorted_impl_elem; [|by apply (rank_ties _ _ _ b Hrank)].
  intros x y [_ Hx]%list_elem_of_filter [_ Hy]%list_elem_of_filter.
  destruct (rank_elem _ _ _ Hrank _ Hx) as (Hx' & _).
  destruct (rank_elem _ _ _ Hrank _ Hy) as (Hy' & _).
  unfold artist_sort_key_le, artist_le.
  by rewrite !artist_sort_key_artist by auto.
Qed.
End rank_order.

(** C5. Every candidate of the ranked output has a bitrate, and that
    bitrate is strictly greater than the bitrate of the original track (which
    therefore has one too): a candidate with no bitrate, with bitrate 0, or
    with a bitrate less than or equal to the original's never survives. *)
Theorem C5_rank_strict_upgrades `{Externals}
    (item : Audio.t) (search_results out : list Audio.t) :
  rank item search_results = Ok out ->
  forall r, r ∈ out ->
    exists b b0, bitrate_of r = Some b /\ bitrate_of item = Some b0 /\
                 b <> 0 /\ b0 < b.
Proof.
  intros Hrank r Hin.
  destruct (rank_elem _ _ _ Hrank _ Hin) as (_ & Hrate & _).
  by apply higher_bitrate_true.
Qed.

Lemma C5_witness :
  exists b b0, bitrate_of Sample.song_320 = Some b /\
               bitrate_of Sample.song = Some b0 /\ b <> 0 /\ b0 < b.
Proof.
  apply (C5_rank_strict_upgrades (H := Sample.externals Sample.catalog)
           Sample.song Sample.catalog
           [Sample.song_flac; Sample.song_320; Sample.song_feat]).
  - vm_compute. reflexivity.
  - apply elem_of_cons. right. apply elem_of_cons. left. reflexivity.
Defined.

(** C2 (amended). Every candidate of the ranked output has a derived
    artist name, and, both names case-folded, the derived artist name of the
    original track occurs in it as a substring: the candidate's name contains
    the original's, not the other way round. *)
Theorem C2_rank_artist_contains_original `{Externals}
    (item : Audio.t) (search_results out : list Audio.t) :
  rank item search_results = Ok out ->
  forall r, r ∈ out ->
    exists a a', artist item = Some a /\ artist r = Some a' /\
      exists pre post, casefold a' = pre +:+ casefold a +:+ post.
Proof.
  intros Hrank r Hin.
  destruct (rank_elem _ _ _ Hrank _ Hin) as (_ & _ & Hart).
  apply artist_matches_true in Hart as (a & a' & Ha & Ha' & Hsub).
  exists a, a'. by rewrite <- str_in_spec.
Qed.

Lemma C2_witness :
  exists a a', artist Sample.song = Some a /\
    artist Sample.song_feat = Some a' /\
    exists pre post, Sample.str_lower a' = pre +:+ Sample.str_lower a +:+ post.
Proof.
  apply (C2_rank_artist_contains_original
           (H := Sample.externals Sample.catalog)
           Sample.song Sample.catalog
           [Sample.song_flac; Sample.song_320; Sample.song_feat]).
  - vm_compute. reflexivity.
  - do 2 (apply elem_of_cons; right). apply elem_of_cons. left. reflexivity.
Defined.

(** C2 as stated fails: for the original by "Artist A", the candidate by
    "Artist A feat. B" is ranked, although its name, case-folded, is not a
    substring of the original's. *)
Lemma C2_counterexample :
  rank (H := Sample.externals Sample.catalog) Sample.song [Sample.song_feat]
    = Ok [Sample.song_feat] /\
  artist Sample.song = Some "Artist A" /\
  artist Sample.song_feat = Some "Artist A feat. B" /\
  str_in (Sample.str_lower "Artist A feat. B") (Sample.str_lower "Artist A")
    = false.
Proof. vm_compute. repeat split. Qed.

(** C4 at a failing input.  Both candidates have bitrate 320; the first has
    an empty [originalTitle], so that its derived artist name is its album
    artist "Artist A" while its sort key is the empty string.  The ranked
    output puts it first, in front of "An Artist A Tribute": the two equal
    bitrates are not in ascending order of the derived artist name. *)
Theorem C4_rank_empty_originalTitle :
  rank (H := Sample.externals Sample.catalog) Sample.song
       [Sample.song_live; Sample.song_untitled]
    = Ok [Sample.song_untitled; Sample.song_live] /\
  bitrate_of Sample.song_untitled = bitrate_of Sample.song_live /\
  artist Sample.song_untitled = Some "Artist A" /\
  artist Sample.song_live = Some "An Artist A Tribute" /\
  String.ltb "An Artist A Tribute" "Artist A" = true.
Proof. vm_compute. repeat split. Qed.

(** ** Running computations *)

Lemma M_bind_run {A B} (m : M A) (f : A -> M B) (w : World) :
  (m ≫= f) w =
  match m w with
  | (w', Ok a) => f a w'
  | (w', Raise e) => (w', Raise e)
  end.
Proof. reflexivity. Qed.

Lemma add_stdout_nil (w : World) : add_stdout [] w = w.
Proof. destruct w. unfold add_stdout. cbn. by rewrite app_nil_r. Qed.

Lemma add_stdout_add_stdout (out out' : list Line) (w : World) :
  add_stdout out' (add_stdout out w) = add_stdout (out ++ out') w.
Proof. unfold add_stdout. cbn. by rewrite app_assoc. Qed.

Lemma set_stdin_stdin (w : World) : set_stdin (stdin w) w = w.
Proof. by destruct w. Qed.

Lemma input_loop_nil {A} (body : string -> M (option A)) (w : World) :
  stdin w = [] -> input_loop body w = (w, Raise EOFError).
Proof. unfold input_loop. by intros ->. Qed.

Lemma input_loop_cons {A} (body : string -> M (option A)) (w : World)
    (s : string) (rest : list string) :
  stdin w = s :: rest ->
  input_loop body w =
  match body s (set_stdin rest w) with
  | (w', Ok (Some a)) => (w', Ok a)
  | (w', Ok None) => input_loop_on body rest w'
  | (w', Raise e) => (w', Raise e)
  end.
Proof. unfold input_loop. by intros ->. Qed.

Lemma truthy_str_nonempty (s : string) :
  s <> "" -> truthy_str (Some s) = true.
Proof. by destruct s. Qed.

(** ** Indexing *)

Lemma getitem_nonneg {A} (l : list A) (k : Z) :
  0 <= k -> getitem l k = l !! Z.to_nat k.
Proof. unfold getitem. intros Hk. by rewrite (proj2 (Z.leb_le 0 k) Hk). Qed.

Lemma getitem_negative {A} (l : list A) (k : Z) :
  1 <= k <= Z.of_nat (length l) ->
  getitem l (- k) = l !! (length l - Z.to_nat k)%nat.
Proof.
  unfold getitem. intros Hk.
  destruct (Z.leb_spec 0 (- k)); [lia|].
  destruct (Z.leb_spec (- Z.of_nat (length l)) (- k)); [|lia].
  f_equal. lia.
Qed.

Lemma getitem_out_of_range {A} (l : list A) (k : Z) :
  Z.of_nat (length l) <= k \/ k < - Z.of_nat (length l) ->
  getitem l k = None.
Proof.
  unfold getitem. intros Hk.
  destruct (Z.leb_spec 0 k).
  - apply lookup_ge_None. lia.
  - destruct (Z.leb_spec (- Z.of_nat (length l)) k); [lia|done].
Qed.

Lemma getitem_elem {A} (l : list A) (k : Z) (x : A) :
  getitem l k = Some x -> x ∈ l.
Proof.
  unfold getitem.
  destruct (0 <=? k); [|destruct (_ <=? k); [|done]];
    intros Hx; by eapply list_elem_of_lookup_2.
Qed.

(** ** One track of the scan *)

Section scan_facts.
Context `{Externals}.

Lemma print_choices (n : nat) (l : list Audio.t) (w : World) :
  for_each (fun index candidate =>
              print (choice index candidate);; mret (S index)) n l w
  = (add_stdout (imap (fun i => choice (n + i)) l) w, Ok (n + length l)%nat).
Proof.
  revert n w. induction l as [|x l IH]; intros n w; cbn [for_each].
  - cbn. by rewrite add_stdout_nil, Nat.add_0_r.
  - rewrite M_bind_run. cbn [imap length].
    change ((print (choice n x);; mret (S n)) w)
      with (add_stdout [choice n x] w, Ok (S n) : result nat).
    lazy beta iota. rewrite IH, add_stdout_add_stdout.
    rewrite Nat.add_0_r, Nat.add_succ_r. cbn [app].
    do 3 f_equal. apply imap_ext. intros i y _. cbn. f_equal. lia.
Qed.

(** What [scan_item] does with a track that fails the quality check, once
    the search has answered and the candidates are ranked. *)
Lemma scan_item_failing (config : PlexConfig) (simple_mode : bool)
    (b : Batch) (item : Audio.t) (w : World)
    (search_results replacements : list Audio.t) :
  check_quality_requirements config item = Ok false ->
  search item = Ok search_results ->
  rank item search_results = Ok replacements ->
  scan_item config simple_mode b item w =
  match replacements with
  | [] =>
      (add_stdout [must_be_upgraded item; no_potential_replacement] w,
       Ok (append_ommited item b))
  | replacement :: _ =>
      if simple_mode then
        (add_stdout [must_be_upgraded item; will_be_used replacement] w,
         Ok (append_replacement item replacement b))
      else
        match input_loop (select_replacement item replacements b)
                (add_stdout
                   (must_be_upgraded item :: imap choice replacements) w)
        with
        | (w', Ok (b', true)) => (w', Ok b')
        | (w', Ok (b', false)) =>
            (add_stdout [no_replacement_selected] w',
             Ok (append_ommited item b'))
        | (w', Raise e) => (w', Raise e)
        end
  end.
Proof.
  intros Hq Hs Hr. unfold scan_item.
  rewrite M_bind_run. unfold lift at 1. rewrite Hq. cbn [negb].
  rewrite M_bind_run. cbn [print].
  rewrite M_bind_run. unfold lift at 1. rewrite Hs.
  rewrite M_bind_run. unfold lift at 1. rewrite Hr.
  destruct replacements as [|replacement rest].
  - rewrite M_bind_run. cbn [print]. by rewrite add_stdout_add_stdout.
  - destruct simple_mode.
    + rewrite M_bind_run. cbn [print]. by rewrite add_stdout_add_stdout.
    + rewrite M_bind_run, print_choices, add_stdout_add_stdout.
      rewrite M_bind_run. cbn [app Nat.add].
      by destruct (input_loop _ _) as [w' [[b' [|]]|e]].
Qed.

Lemma scan_item_meeting (config : PlexConfig) (simple_mode : bool)
    (b : Batch) (item : Audio.t) (w : World) :
  check_quality_requirements config item = Ok true ->
  scan_item config simple_mode b item w =
  (add_stdout [meets_requirements item] w, Ok b).
Proof.
  intros Hq. unfold scan_item.
  rewrite M_bind_run. unfold lift at 1. rewrite Hq. cbn [negb].
  by rewrite M_bind_run.
Qed.
End scan_facts.

(** ** Theorems: ReplacementResolver *)

Section resolver.
Context `{Externals}.
Variables (config : PlexConfig) (b : Batch) (item : Audio.t).
Variables (search_results replacements : list Audio.t).
Hypothesis (Hfails : check_quality_requirements config item = Ok false).
Hypothesis (Hsearch : search item = Ok search_results).
Hypothesis (Hrank : rank item search_results = Ok replacements).

Lemma manual_empty_response (w : World) (rest : list string) :
  replacements <> [] ->
  stdin w = "" :: rest ->
  scan_item config false b item w =
  (add_stdout (manual_lines item replacements ++ [no_replacement_selected]) (set_stdin rest w),
   Ok (append_ommited item b)).
Proof using Hfails Hsearch Hrank.
  intros Hne Hin.
  rewrite (scan_item_failing _ _ _ _ _ _ _ Hfails Hsearch Hrank).
  destruct replacements as [|first others] eqn:E; [done|].
  rewrite (input_loop_cons _ _ "" rest) by done.
  cbn. unfold manual_lines, add_stdout, set_stdin. cbn.
  by rewrite <- app_assoc.
Qed.

Lemma manual_retry (w : World) (s : string) (rest : list string) :
  replacements <> [] ->
  s <> "" ->
  int s ≫= getitem replacements = None ->
  stdin w = s :: rest ->
  scan_item config false b item w =
  scan_item config false b item (set_stdin rest w).
Proof using Hfails Hsearch Hrank.
  intros Hne Hs Hbad Hin.
  rewrite !(scan_item_failing _ _ _ _ _ _ _ Hfails Hsearch Hrank).
  destruct replacements as [|first others] eqn:E; [done|].
  rewrite (input_loop_cons _ _ s rest) by done.
  unfold select_replacement at 1.
  rewrite (truthy_str_nonempty _ Hs), Hbad.
  reflexivity.
Qed.

Lemma manual_selection (w : World) (s : string) (rest : list string)
    (r : Audio.t) :
  s <> "" ->
  int s ≫= getitem replacements = Some r ->
  stdin w = s :: rest ->
  scan_item config false b item w =
  (add_stdout (manual_lines item replacements ++ [will_be_used r]) (set_stdin rest w),
   Ok (append_replacement item r b)).
Proof using Hfails Hsearch Hrank.
  intros Hs Hgood Hin.
  rewrite (scan_item_failing _ _ _ _ _ _ _ Hfails Hsearch Hrank).
  destruct replacements as [|first others] eqn:E.
  { destruct (int s) as [k|]; [|done].
    by apply getitem_elem, elem_of_nil in Hgood. }
  rewrite (input_loop_cons _ _ s rest) by done.
  unfold select_replacement at 1.
  rewrite (truthy_str_nonempty _ Hs), Hgood.
  rewrite M_bind_run. cbn. unfold manual_lines, add_stdout, set_stdin. cbn.
  by rewrite <- app_assoc.
Qed.
End resolver.

(** C6. In simple mode a track that fails the quality check and has a
    non-empty ranked candidate list is replaced by the first candidate of
    that list: the candidate is appended to [items_to_add] and the track to
    [items_to_remove], and no input is read.  With an empty ranked list the
    track is appended to [items_ommited]. *)
Theorem C6_simple_mode_selects_first `{Externals}
    (config : PlexConfig) (b : Batch) (item : Audio.t) (w : World)
    (search_results replacements : list Audio.t) :
  check_quality_requirements config item = Ok false ->
  search item = Ok search_results ->
  rank item search_results = Ok replacements ->
  (forall first others, replacements = first :: others ->
     scan_item config true b item w =
     (add_stdout [must_be_upgraded item; will_be_used first] w,
      Ok {| items_to_remove := items_to_remove b ++ [item];
            items_to_add := items_to_add b ++ [first];
            items_ommited := items_ommited b |})) /\
  (replacements = [] ->
     scan_item config true b item w =
     (add_stdout [must_be_upgraded item; no_potential_replacement] w,
      Ok {| items_to_remove := items_to_remove b;
            items_to_add := items_to_add b;
            items_ommited := items_ommited b ++ [item] |})).
Proof.
  intros Hfails Hsearch Hrank.
  rewrite (scan_item_failing _ _ _ _ _ _ _ Hfails Hsearch Hrank).
  split.
  - by intros first others ->.
  - by intros ->.
Qed.

Lemma C6_witness :
  scan_item (H := Sample.externals Sample.catalog) Sample.default_config true
    no_items Sample.song (Sample.world []) =
  (add_stdout [must_be_upgraded Sample.song; will_be_used Sample.song_flac]
     (Sample.world []),
   Ok {| items_to_remove := [Sample.song];
         items_to_add := [Sample.song_flac];
         items_ommited := [] |}).
Proof.
  refine (proj1 (C6_simple_mode_selects_first
                   (H := Sample.externals Sample.catalog)
                   Sample.default_config no_items Sample.song (Sample.world [])
                   [Sample.song; Sample.song_320; Sample.song_192;
                    Sample.song_feat; Sample.song_flac]
                   [Sample.song_flac; Sample.song_320; Sample.song_feat]
                   _ _ _)
            Sample.song_flac [Sample.song_320; Sample.song_feat] _);
    vm_compute; reflexivity.
Defined.

(** C3 (amended). In manual mode, for a track with a non-empty ranked
    candidate list: an empty response selects nothing and the track is
    appended to [items_ommited]; a response that is not a number, or is a
    number [k] with [k >= n] or [k < -n] for the [n] candidates, is discarded
    and the question is asked again, so that the outcome is the one of the
    remaining input; a response [k] with [0 <= k < n] selects candidate [k],
    which is appended to [items_to_add] and the track to
    [items_to_remove]. *)
Theorem C3_manual_mode_responses `{Externals}
    (config : PlexConfig) (b : Batch) (item : Audio.t) (w : World)
    (search_results replacements : list Audio.t)
    (s : string) (rest : list string) :
  check_quality_requirements config item = Ok false ->
  search item = Ok search_results ->
  rank item search_results = Ok replacements ->
  replacements <> [] ->
  stdin w = s :: rest ->
  let n := Z.of_nat (length replacements) in
  (s = "" ->
     scan_item config false b item w =
     (add_stdout (manual_lines item replacements ++ [no_replacement_selected])
        (set_stdin rest w),
      Ok (append_ommited item b))) /\
  (s <> "" ->
   (int s = None \/ exists k, int s = Some k /\ (n <= k \/ k < - n)) ->
     scan_item config false b item w =
     scan_item config false b item (set_stdin rest w)) /\
  (s <> "" ->
   forall k, int s = Some k -> 0 <= k < n ->
     exists r, replacements !! Z.to_nat k = Some r /\
       scan_item config false b item w =
       (add_stdout (manual_lines item replacements ++ [will_be_used r])
          (set_stdin rest w),
        Ok (append_replacement item r b))).
Proof.
  intros Hfails Hsearch Hrank Hne Hin n. repeat split.
  - intros ->. by eapply manual_empty_response.
  - intros Hs Hbad. eapply manual_retry; try done.
    destruct Hbad as [->|(k & -> & Hk)]; [done|].
    by apply getitem_out_of_range.
  - intros Hs k Hk Hrange.
    destruct (lookup_lt_is_Some_2 replacements (Z.to_nat k)) as [r Hr]; [lia|].
    exists r. split; [done|].
    eapply manual_selection; try done.
    rewrite Hk. cbn. rewrite getitem_nonneg by lia. done.
Qed.

Lemma C3_witness :
  scan_item (H := Sample.externals Sample.catalog) Sample.default_config false
    no_items Sample.song (Sample.world ["5"; "1"]) =
  scan_item (H := Sample.externals Sample.catalog) Sample.default_config false
    no_items Sample.song (set_stdin ["1"] (Sample.world ["5"; "1"])).
Proof.
  refine (proj1 (proj2 (C3_manual_mode_responses
                   (H := Sample.externals Sample.catalog)
                   Sample.default_config no_items Sample.song
                   (Sample.world ["5"; "1"])
                   [Sample.song; Sample.song_320; Sample.song_192;
                    Sample.song_feat; Sample.song_flac]
                   [Sample.song_flac; Sample.song_320; Sample.song_feat]
                   "5" ["1"] _ _ _ _ _)) _ _).
  - vm_compute. reflexivity.
  - vm_compute. reflexivity.
  - vm_compute. reflexivity.
  - discriminate.
  - reflexivity.
  - discriminate.
  - right. exists 5. split; [vm_compute; reflexivity|]. left. cbn. lia.
Defined.

(** C3 as stated fails: with three candidates, the responses "5" (out of
    range) and "abc" (not a number) do not leave the track without a
    replacement as the empty response does.  The next line of input is read
    as the answer: here candidate 1 is selected, while after the empty
    response the track is omitted and the next line is left unread. *)
Lemma C3_counterexample :
  let E := Sample.externals Sample.catalog in
  let run inp :=
    scan_item (H := E) Sample.default_config false no_items Sample.song
      (Sample.world inp) in
  (search (H := E) Sample.song ≫= rank (H := E) Sample.song)
    = Ok [Sample.song_flac; Sample.song_320; Sample.song_feat] /\
  int (Externals := E) "5" = Some 5 /\
  int (Externals := E) "abc" = None /\
  (run ["5"; "1"]).2 = Ok (append_replacement Sample.song Sample.song_320 no_items) /\
  stdin (run ["5"; "1"]).1 = [] /\
  (run ["abc"; "1"]).2 = Ok (append_replacement Sample.song Sample.song_320 no_items) /\
  stdin (run ["abc"; "1"]).1 = [] /\
  (run [""; "1"]).2 = Ok (append_ommited Sample.song no_items) /\
  stdin (run [""; "1"]).1 = ["1"].
Proof. vm_compute. repeat split. Qed.

(** C10. In manual mode a response that parses to [-k] with
    [1 <= k <= n], for the [n] ranked candidates, is a selection: it selects
    the candidate at index [n - k], the [k]-th from the end, which is
    appended to [items_to_add] (and the track to [items_to_remove]); with
    [k = 1] that is the last candidate. *)
Theorem C10_negative_response_selects `{Externals}
    (config : PlexConfig) (b : Batch) (item : Audio.t) (w : World)
    (search_results replacements : list Audio.t)
    (s : string) (rest : list string) (k : Z) :
  check_quality_requirements config item = Ok false ->
  search item = Ok search_results ->
  rank item search_results = Ok replacements ->
  stdin w = s :: rest ->
  s <> "" ->
  int s = Some (- k) ->
  1 <= k <= Z.of_nat (length replacements) ->
  exists r,
    replacements !! (length replacements - Z.to_nat k)%nat = Some r /\
    (k = 1 -> last replacements = Some r) /\
    scan_item config false b item w =
    (add_stdout (manual_lines item replacements ++ [will_be_used r])
       (set_stdin rest w),
     Ok {| items_to_remove := items_to_remove b ++ [item];
           items_to_add := items_to_add b ++ [r];
           items_ommited := items_ommited b |}).
Proof.
  intros Hfails Hsearch Hrank Hin Hs Hk Hrange.
  destruct (lookup_lt_is_Some_2 replacements
              (length replacements - Z.to_nat k)%nat) as [r Hr]; [lia|].
  exists r. repeat split; [done| |].
  - intros ->. rewrite last_lookup, <- Hr. f_equal. lia.
  - eapply manual_selection; try done.
    rewrite Hk. cbn. by rewrite getitem_negative.
Qed.

Lemma C10_witness :
  exists r,
    [Sample.song_flac; Sample.song_320; Sample.song_feat] !! (3 - 1)%nat
      = Some r /\
    (1 = 1 -> last [Sample.song_flac; Sample.song_320; Sample.song_feat]
              = Some r) /\
    scan_item (H := Sample.externals Sample.catalog) Sample.default_config
      false no_items Sample.song (Sample.world ["-1"]) =
    (add_stdout
       (manual_lines Sample.song
          [Sample.song_flac; Sample.song_320; Sample.song_feat]
        ++ [will_be_used r])
       (set_stdin [] (Sample.world ["-1"])),
     Ok {| items_to_remove := [Sample.song];
           items_to_add := [r];
           items_ommited := [] |}).
Proof.
  refine (C10_negative_response_selects
            (H := Sample.externals Sample.catalog)
            Sample.default_config no_items Sample.song (Sample.world ["-1"])
            [Sample.song; Sample.song_320; Sample.song_192;
             Sample.song_feat; Sample.song_flac]
            [Sample.song_flac; Sample.song_320; Sample.song_feat]
            "-1" [] 1 _ _ _ _ _ _ _).
  - vm_compute. reflexivity.
  - vm_compute. reflexivity.
  - vm_compute. reflexivity.
  - reflexivity.
  - discriminate.
  - vm_compute. reflexivity.
  - cbn. lia.
Defined.

Lemma C1_witness :
  check_quality_requirements Sample.default_config Sample.song = Ok false /\
  check_quality_requirements Sample.lossless_config Sample.song_flac = Ok true /\
  check_quality_requirements Sample.all_config Sample.song_flac = Ok false.
Proof.
  split; [|split].
  - destruct (proj2 (proj2 (C1_check_quality_requirements
                              Sample.default_config Sample.song)))
      as (_ & Hrate & _).
    + vm_compute. reflexivity.
    + destruct (Hrate 128 eq_refl) as (ok & Hok & Hiff).
      rewrite Hok. f_equal. destruct ok; [|reflexivity].
      exfalso. apply (proj1 Hiff eq_refl). left. split; [reflexivity|lia].
  - destruct (proj1 (proj2 (C1_check_quality_requirements
                              Sample.lossless_config Sample.song_flac)))
      as (ok & Hok & Hiff).
    + vm_compute. reflexivity.
    + rewrite Hok. f_equal. apply Hiff. right. reflexivity.
  - apply (proj1 (C1_check_quality_requirements
                    Sample.all_config Sample.song_flac)).
    vm_compute. reflexivity.
Defined.

(** ** Footprints of computations *)

Section stable_facts.
Context (R : relation World) `{!PreOrder R}.

Lemma stable_ret {A} (a : A) : stable R (mret a : M A).
Proof. intros w. reflexivity. Qed.

Lemma stable_lift {A} (r : result A) : stable R (lift r).
Proof. intros w. reflexivity. Qed.

Lemma stable_fetch (playlist : nat) : stable R (fetch playlist).
Proof. intros w. reflexivity. Qed.

Lemma stable_bind {A B} (m : M A) (f : A -> M B) :
  stable R m -> (forall a, stable R (f a)) -> stable R (m ≫= f).
Proof.
  intros Hm Hf w. rewrite M_bind_run. specialize (Hm w).
  destruct (m w) as [w' [a|e]]; cbn in *; [|done].
  etrans; [exact Hm|apply Hf].
Qed.

Lemma stable_for_each {A S} (body : S -> A -> M S) (s : S) (l : list A) :
  (forall s x, stable R (body s x)) -> stable R (for_each body s l).
Proof.
  intros Hbody. revert s. induction l as [|x l IH]; intros s; cbn [for_each].
  - apply stable_ret.
  - apply stable_bind; [apply Hbody|apply IH].
Qed.

Lemma stable_input_loop {A} (body : string -> M (option A)) :
  (forall inp w, R w (set_stdin inp w)) ->
  (forall s, stable R (body s)) ->
  stable R (input_loop body).
Proof.
  intros Hin Hbody w. unfold input_loop. generalize (stdin w) as inp.
  intros inp. revert w. induction inp as [|s rest IH]; intros w; cbn.
  - reflexivity.
  - specialize (Hbody s (set_stdin rest w)).
    destruct (body s (set_stdin rest w)) as [w' [[a|]|e]]; cbn in *.
    + etrans; [apply (Hin rest)|done].
    + etrans; [apply (Hin rest)|]. etrans; [exact Hbody|apply IH].
    + etrans; [apply (Hin rest)|done].
Qed.
End stable_facts.

#[global] Instance unchanged_preorder {X} (f : World -> X) :
  PreOrder (unchanged f).
Proof.
  split.
  - by intros w.
  - intros w1 w2 w3 H12 H23. unfold unchanged in *. congruence.
Qed.

#[global] Instance calls_added_preorder (P : Call -> Prop) :
  PreOrder (calls_added P).
Proof.
  split.
  - intros w. exists []. by rewrite app_nil_r.
  - intros w1 w2 w3 (cs & E12 & H12) (cs' & E23 & H23).
    exists (cs ++ cs')%list. split.
    + by rewrite E23, E12, app_assoc.
    + by apply Forall_app.
Qed.

Lemma add_stdout_set_stdin (out out' : list Line) (inp inp' : list string)
    (w : World) :
  add_stdout out' (set_stdin inp' (add_stdout out (set_stdin inp w)))
  = add_stdout (out ++ out') (set_stdin inp' w).
Proof. unfold add_stdout, set_stdin. cbn. by rewrite app_assoc. Qed.

Lemma kc_ret {A} (a : A) : keyboard_and_console (mret a : M A).
Proof.
  intros w1 w2 Heq. exists (stdin w1), [], (Ok a). split.
  - by rewrite set_stdin_stdin, add_stdout_nil.
  - by rewrite Heq, set_stdin_stdin, add_stdout_nil.
Qed.

Lemma kc_lift {A} (r : result A) : keyboard_and_console (lift r).
Proof.
  intros w1 w2 Heq. exists (stdin w1), [], r. split.
  - by rewrite set_stdin_stdin, add_stdout_nil.
  - by rewrite Heq, set_stdin_stdin, add_stdout_nil.
Qed.

Lemma kc_print (l : Line) : keyboard_and_console (print l).
Proof.
  intros w1 w2 Heq. exists (stdin w1), [l], (Ok tt). split.
  - by rewrite set_stdin_stdin.
  - by rewrite Heq, set_stdin_stdin.
Qed.

Lemma kc_bind {A B} (m : M A) (f : A -> M B) :
  keyboard_and_console m -> (forall a, keyboard_and_console (f a)) ->
  keyboard_and_console (m ≫= f).
Proof.
  intros Hm Hf w1 w2 Heq.
  destruct (Hm w1 w2 Heq) as (inp & out & r & E1 & E2).
  rewrite !M_bind_run, E1, E2.
  destruct r as [a|e].
  - destruct (Hf a (add_stdout out (set_stdin inp w1))
                   (add_stdout out (set_stdin inp w2)) eq_refl)
      as (inp' & out' & r' & E1' & E2').
    exists inp', (out ++ out')%list, r'.
    by rewrite E1', E2', !add_stdout_set_stdin.
  - by exists inp, out, (Raise e).
Qed.

Lemma kc_for_each {A S} (body : S -> A -> M S) (s : S) (l : list A) :
  (forall s x, keyboard_and_console (body s x)) ->
  keyboard_and_console (for_each body s l).
Proof.
  intros Hbody. revert s. induction l as [|x l IH]; intros s; cbn [for_each].
  - apply kc_ret.
  - apply kc_bind; [apply Hbody|apply IH].
Qed.

Lemma kc_input_loop {A} (body : string -> M (option A)) :
  (forall s, keyboard_and_console (body s)) ->
  keyboard_and_console (input_loop body).
Proof.
  intros Hbody.
  assert (forall inp out inp0 w1 w2,
    exists inp' out' r,
      input_loop_on body inp (add_stdout out (set_stdin inp0 w1))
        = (add_stdout out' (set_stdin inp' w1), r) /\
      input_loop_on body inp (add_stdout out (set_stdin inp0 w2))
        = (add_stdout out' (set_stdin inp' w2), r)) as Hloop.
  { intros inp.
    induction inp as [|s rest IH]; intros out inp0 w1 w2; cbn.
    - by exists inp0, out, (Raise EOFError).
    - destruct (Hbody s (set_stdin rest (add_stdout out (set_stdin inp0 w1)))
                       (set_stdin rest (add_stdout out (set_stdin inp0 w2)))
                       eq_refl)
        as (inp' & out' & r & E1 & E2).
      rewrite E1, E2.
      change (set_stdin inp' (set_stdin rest (add_stdout out (set_stdin inp0 w1))))
        with (set_stdin inp' (add_stdout out (set_stdin inp0 w1))).
      change (set_stdin inp' (set_stdin rest (add_stdout out (set_stdin inp0 w2))))
        with (set_stdin inp' (add_stdout out (set_stdin inp0 w2))).
      rewrite !add_stdout_set_stdin.
      destruct r as [[a|]|e].
      + by exists inp', (out ++ out')%list, (Ok a).
      + apply IH.
      + by exists inp', (out ++ out')%list, (Raise e). }
  intros w1 w2 Heq. unfold input_loop. rewrite <- Heq.
  destruct (Hloop (stdin w1) [] (stdin w1) w1 w2)
    as (inp' & out' & r & E1 & E2).
  rewrite add_stdout_nil, set_stdin_stdin in E1.
  rewrite add_stdout_nil, Heq, set_stdin_stdin in E2.
  exists inp', out', r. by rewrite <- Heq in E2.
Qed.

Ltac kc_auto :=
  repeat first
    [ apply kc_ret | apply kc_lift | apply kc_print
    | apply kc_bind; [|intros ?]
    | apply kc_for_each; intros ? ?
    | apply kc_input_loop; intros ?
    | match goal with
      | |- keyboard_and_console (if ?c then _ else _) => destruct c
      | |- keyboard_and_console (match ?x with _ => _ end) => destruct x
      end ].

Section scan_footprint.
Context `{Externals}.

Lemma kc_select_replacement (item : Audio.t) (replacements : list Audio.t)
    (b : Batch) (index : string) :
  keyboard_and_console (select_replacement item replacements b index).
Proof. unfold select_replacement. kc_auto. Qed.

Lemma kc_scan_item (config : PlexConfig) (simple_mode : bool) (b : Batch)
    (item : Audio.t) :
  keyboard_and_console (scan_item config simple_mode b item).
Proof.
  unfold scan_item. kc_auto. apply kc_select_replacement.
Qed.

(** The scan reads the keyboard and writes to the console, and does
    nothing else. *)
Lemma kc_scan (config : PlexConfig) (simple_mode : bool)
    (items : list Audio.t) :
  keyboard_and_console (scan config simple_mode items).
Proof. apply kc_for_each. intros b item. apply kc_scan_item. Qed.

Lemma scan_footprint (config : PlexConfig) (simple_mode : bool)
    (items : list Audio.t) (w : World) :
  exists inp out r,
    scan config simple_mode items w = (add_stdout out (set_stdin inp w), r).
Proof.
  destruct (kc_scan config simple_mode items w w eq_refl)
    as (inp & out & r & E & _).
  by exists inp, out, r.
Qed.

(** In simple mode the scan reads no input. *)
Lemma scan_item_simple_stdin (config : PlexConfig) (b : Batch)
    (item : Audio.t) :
  stable (unchanged stdin) (scan_item config true b item).
Proof.
  assert (forall l, stable (unchanged stdin) (print l)) as Hprint
    by (by intros l w).
  unfold scan_item.
  repeat first
    [ match goal with |- PreOrder _ => apply _ end
    | apply stable_ret | apply stable_lift | apply Hprint
    | apply stable_bind; [| |intros ?]
    | progress lazy beta iota
    | match goal with
      | |- stable _ (if ?c then _ else _) => destruct c
      | |- stable _ (match ?x with _ => _ end) => destruct x
      end ].
Qed.

Lemma scan_simple_stdin (config : PlexConfig) (items : list Audio.t) :
  stable (unchanged stdin) (scan config true items).
Proof.
  apply stable_for_each; [apply _|]. intros b item.
  apply scan_item_simple_stdin.
Qed.
End scan_footprint.

(** ** The commit *)

Section commit_footprint.
Context `{Externals} (R : relation World) `{!PreOrder R} (n : nat).
Hypothesis Hprint :
  forall l w, is_decision_line l = false -> R w (add_stdout [l] w).
Hypothesis Hstdin : forall inp w, R w (set_stdin inp w).
Hypothesis Hremove : forall items, stable R (removeItems n items).
Hypothesis Hadd : forall items, stable R (addItems n items).
Hypothesis Hrun : forall args, stable R (subprocess_run args).

Lemma stable_print (l : Line) :
  is_decision_line l = false -> stable R (print l).
Proof using Hprint. intros Hl w. by apply Hprint. Qed.

Lemma stable_commit (title : string) (b : Batch) :
  stable R (commit n title b).
Proof using All.
  unfold commit, print_each, spotdl_download, choose_spotdl_download,
    yes_or_default_no.
  repeat first
    [ match goal with |- PreOrder _ => apply _ end
    | apply stable_ret | apply Hremove | apply Hadd | apply Hrun
    | apply stable_print; reflexivity
    | apply stable_bind; [| |intros ?]
    | apply stable_for_each; [| intros ? ?]
    | apply stable_input_loop; [| exact Hstdin | intros ?]
    | match goal with
      | |- stable _ (if ?c then _ else _) => destruct c
      | |- stable _ (match ?x with _ => _ end) => destruct x
      end ].
Qed.
End commit_footprint.

Section commit_facts.
Context `{Externals}.

Lemma decision_report_app (out out' : list Line) :
  decision_report (out ++ out') = decision_report out ++ decision_report out'.
Proof. apply filter_app. Qed.

(** The commit reports no decision. *)
Lemma commit_decision_report (n : nat) (title : string) (b : Batch) :
  stable (unchanged (fun w => decision_report (stdout w))) (commit n title b).
Proof.
  apply stable_commit; try apply _; try done.
  intros l w Hl. unfold unchanged. cbn.
  rewrite decision_report_app.
  destruct l; try discriminate Hl; cbn; by rewrite app_nil_r.
Qed.

(** The commit on playlist [n] leaves every other playlist as it is. *)
Lemma commit_other_playlist (n p : nat) (title : string) (b : Batch) :
  p <> n ->
  stable (unchanged (fun w => playlists w !! p)) (commit n title b).
Proof.
  intros Hp. apply stable_commit; try apply _; try done.
  - intros items w. unfold unchanged. cbn. by apply list_lookup_alter_ne.
  - intros items w. unfold unchanged. cbn. by apply list_lookup_alter_ne.
Qed.

(** It changes the contents of playlist [n] at most: the attributes of
    every playlist stay. *)
Lemma commit_attributes (n p : nat) (title : string) (b : Batch) :
  stable (unchanged (fun w => attributes <$> playlists w !! p))
         (commit n title b).
Proof.
  assert (forall f (pls : list Playlist.t),
            attributes <$> alter (set_items f) n pls !! p
            = attributes <$> pls !! p) as Halter.
  { intros f pls. rewrite list_lookup_alter.
    destruct (decide (n = p)) as [->|]; [|done].
    by destruct (pls !! p). }
  apply stable_commit; try apply _; try done.
  - intros items w. unfold unchanged. cbn. apply Halter.
  - intros items w. unfold unchanged. cbn. apply Halter.
Qed.

(** Its calls to the server are for playlist [n]. *)
Lemma commit_calls (n : nat) (title : string) (b : Batch) :
  stable (calls_added (changes_only n)) (commit n title b).
Proof.
  apply stable_commit; try apply _.
  - intros l w _. exists []. by rewrite app_nil_r.
  - intros inp w. exists []. by rewrite app_nil_r.
  - intros items w. exists [Call_removeItems n items].
    split; [done|]. by apply Forall_singleton.
  - intros items w. exists [Call_addItems n items].
    split; [done|]. by apply Forall_singleton.
  - intros args w. exists [Call_subprocess_run args].
    split; [done|]. by apply Forall_singleton.
Qed.
End commit_facts.

(** ** Runs of [upgrade_playlist] *)

Section upgrade_facts.
Context `{Externals}.

Lemma upgrade_playlist_dry (config : PlexConfig) (playlist : nat)
    (duplicate simple_mode : bool) (w : World) :
  upgrade_playlist config playlist duplicate simple_mode true w =
  match playlists w !! playlist with
  | None => (w, Raise NotFound)
  | Some pl =>
      match scan config simple_mode (Playlist.items pl) w with
      | (w', Ok _) => (w', Ok playlist)
      | (w', Raise e) => (w', Raise e)
      end
  end.
Proof.
  unfold upgrade_playlist. rewrite M_bind_run. unfold fetch at 1.
  destruct (playlists w !! playlist) as [pl|]; [|done].
  rewrite andb_false_r, M_bind_run. cbn [mret M_ret].
  rewrite M_bind_run.
  by destruct (scan _ _ _ _) as [w' [b|e]].
Qed.

Lemma upgrade_playlist_in_place (config : PlexConfig) (playlist : nat)
    (simple_mode : bool) (w : World) :
  upgrade_playlist config playlist false simple_mode false w =
  match playlists w !! playlist with
  | None => (w, Raise NotFound)
  | Some pl =>
      match scan config simple_mode (Playlist.items pl) w with
      | (w', Ok b) =>
          match commit playlist (Playlist.title pl) b w' with
          | (w'', Ok _) => (w'', Ok playlist)
          | (w'', Raise e) => (w'', Raise e)
          end
      | (w', Raise e) => (w', Raise e)
      end
  end.
Proof.
  unfold upgrade_playlist. rewrite M_bind_run. unfold fetch at 1.
  destruct (playlists w !! playlist) as [pl|]; [|done].
  cbn [andb]. rewrite M_bind_run. cbn [mret M_ret].
  rewrite M_bind_run.
  destruct (scan _ _ _ _) as [w' [b|e]]; [|done].
  rewrite M_bind_run. cbn [negb].
  by destruct (commit _ _ _ _) as [w'' [[]|e]].
Qed.

(** With [duplicate] set the run is: create the copy, report it, and run
    in place on the copy. *)
Lemma upgrade_playlist_duplicate (config : PlexConfig) (playlist : nat)
    (simple_mode : bool) (w : World) (pl : Playlist.t) :
  playlists w !! playlist = Some pl ->
  let title := "Copy of " +:+ Playlist.title pl in
  upgrade_playlist config playlist true simple_mode false w =
  upgrade_playlist config (length (playlists w)) false simple_mode false
    (add_stdout [created title]
       (Playlist_create title (Playlist.summary pl) (Playlist.items pl)
          (Playlist.playlistType pl) w).1).
Proof.
  intros Hpl title.
  set (new_pl := Playlist.Build title (Playlist.summary pl)
                   (Playlist.playlistType pl) false (Playlist.items pl)).
  assert (Playlist_create title (Playlist.summary pl) (Playlist.items pl)
            (Playlist.playlistType pl) w
          = ((Playlist_create title (Playlist.summary pl) (Playlist.items pl)
                (Playlist.playlistType pl) w).1,
             Ok (length (playlists w)))) as Hcreate by done.
  set (w0 := (Playlist_create title (Playlist.summary pl) (Playlist.items pl)
                (Playlist.playlistType pl) w).1) in *.
  assert (playlists w0 !! length (playlists w) = Some new_pl) as Hnew
    by (by apply list_lookup_middle).
  rewrite upgrade_playlist_in_place.
  change (playlists (add_stdout [created title] w0)) with (playlists w0).
  rewrite Hnew.
  unfold upgrade_playlist. rewrite M_bind_run. unfold fetch at 1.
  rewrite Hpl. cbn [andb negb].
  rewrite (M_bind_run (_ ≫= _)), (M_bind_run (Playlist_create _ _ _ _)).
  fold title. rewrite Hcreate.
  rewrite M_bind_run. unfold fetch at 1. rewrite Hnew.
  rewrite M_bind_run. cbn [print mret M_ret].
  rewrite M_bind_run.
  destruct (scan _ _ _ _) as [w' [b|e]]; [|done].
  rewrite M_bind_run.
  by destruct (commit _ _ _ _) as [w'' [[]|e]].
Qed.
End upgrade_facts.

(** ** Theorems: the lists of the scan *)

Section batch_facts.
Context `{Externals}.

Lemma select_replacement_loop (item : Audio.t) (replacements : list Audio.t)
    (b b' : Batch) (flag : bool) (inp : list string) (w w' : World) :
  input_loop_on (select_replacement item replacements b) inp w
    = (w', Ok (b', flag)) ->
  (flag = false /\ b' = b) \/
  (flag = true /\
   exists r, r ∈ replacements /\ b' = append_replacement item r b).
Proof.
  revert w. induction inp as [|s rest IH]; intros w; cbn [input_loop_on].
  - discriminate.
  - unfold select_replacement at 1.
    destruct (truthy_str (Some s)).
    + destruct (int s ≫= getitem replacements) as [r|] eqn:Hr.
      * rewrite M_bind_run. cbn. intros [= <- <- <-]. right.
        split; [done|]. exists r. split; [|done].
        destruct (int s) as [k|]; [|done]. by eapply getitem_elem.
      * cbn. apply IH.
    + cbn. intros [= <- <- <-]. by left.
Qed.

(** Each run of the loop body records one decision, and a justified one. *)
Lemma scan_item_decision (config : PlexConfig) (simple_mode : bool)
    (b b' : Batch) (item : Audio.t) (w w' : World) :
  scan_item config simple_mode b item w = (w', Ok b') ->
  exists d, justified config simple_mode item d /\
            b' = record_decision item d b.
Proof.
  intros Hrun.
  destruct (check_quality_requirements config item) as [[|]|e] eqn:Hq.
  - rewrite (scan_item_meeting _ _ _ _ _ Hq) in Hrun.
    injection Hrun as _ <-. by exists Kept.
  - destruct (search item) as [search_results|e] eqn:Hs; cycle 1.
    { unfold scan_item in Hrun. rewrite M_bind_run in Hrun.
      unfold lift at 1 in Hrun. rewrite Hq in Hrun. cbn [negb] in Hrun.
      rewrite M_bind_run in Hrun. cbn [print] in Hrun.
      rewrite M_bind_run in Hrun. unfold lift at 1 in Hrun.
      by rewrite Hs in Hrun. }
    destruct (rank item search_results) as [replacements|e] eqn:Hr; cycle 1.
    { unfold scan_item in Hrun. rewrite M_bind_run in Hrun.
      unfold lift at 1 in Hrun. rewrite Hq in Hrun. cbn [negb] in Hrun.
      rewrite M_bind_run in Hrun. cbn [print] in Hrun.
      rewrite M_bind_run in Hrun. unfold lift at 1 in Hrun.
      rewrite Hs in Hrun. rewrite M_bind_run in Hrun.
      unfold lift at 1 in Hrun. by rewrite Hr in Hrun. }
    rewrite (scan_item_failing _ _ _ _ _ _ _ Hq Hs Hr) in Hrun.
    destruct replacements as [|first others] eqn:E.
    { injection Hrun as _ <-. exists Omitted. split; [|done].
      split; [done|]. by exists search_results, []. }
    rewrite <- E in *.
    assert (forall r, r ∈ replacements ->
              (simple_mode = true -> head replacements = Some r) ->
              chosen config simple_mode item r) as Hchosen.
    { intros r Hin Hhead. split; [done|].
      by exists search_results, replacements. }
    destruct simple_mode.
    + injection Hrun as _ <-. exists (Replaced first). split; [|done].
      apply Hchosen; rewrite E; [left|done].
    + unfold input_loop in Hrun.
      destruct (input_loop_on _ _ _) as [w1 [[b1 flag]|e]] eqn:Hloop;
        [|done].
      apply select_replacement_loop in Hloop
        as [[-> ->]|(-> & r & Hin & ->)].
      * injection Hrun as _ <-. exists Omitted. split; [|done].
        split; [done|]. by exists search_results, replacements.
      * injection Hrun as _ <-. exists (Replaced r). split; [|done].
        by apply Hchosen.
  - unfold scan_item in Hrun. rewrite M_bind_run in Hrun.
    unfold lift at 1 in Hrun. by rewrite Hq in Hrun.
Qed.

Lemma record_decisions (ds : list (Audio.t * UpgradeDecision)) (b : Batch) :
  let b' := foldl (fun b d => record_decision d.1 d.2 b) b ds in
  items_to_remove b' = items_to_remove b ++ removed_of ds /\
  items_to_add b' = items_to_add b ++ added_of ds /\
  items_ommited b' = items_ommited b ++ omitted_of ds.
Proof.
  revert b. induction ds as [|[item d] ds IH]; intros b; cbv zeta; cbn [foldl fst snd].
  - by rewrite !app_nil_r.
  - pose proof (IH (record_decision item d b)) as IH'. cbv zeta in IH'.
    destruct IH' as (-> & -> & ->).
    destruct d; cbn; by rewrite <- ?app_assoc.
Qed.

Lemma scan_decisions (config : PlexConfig) (simple_mode : bool)
    (items : list Audio.t) (b b' : Batch) (w w' : World) :
  for_each (scan_item config simple_mode) b items w = (w', Ok b') ->
  exists ds : list (Audio.t * UpgradeDecision),
    ds.*1 = items /\
    Forall (fun d => justified config simple_mode d.1 d.2) ds /\
    b' = foldl (fun b d => record_decision d.1 d.2 b) b ds.
Proof.
  revert b w. induction items as [|item items IH]; intros b w; cbn [for_each].
  - intros [= <- <-]. by exists [].
  - rewrite M_bind_run.
    destruct (scan_item _ _ _ _ _) as [w1 [b1|e]] eqn:Hitem; [|done].
    intros Hrest.
    apply scan_item_decision in Hitem as (d & Hd & ->).
    apply IH in Hrest as (ds & <- & Hds & ->).
    exists ((item, d) :: ds). split; [done|]. split; [by constructor|done].
Qed.

Lemma replaced_pairs (config : PlexConfig) (simple_mode : bool)
    (ds : list (Audio.t * UpgradeDecision)) :
  Forall (fun d => justified config simple_mode d.1 d.2) ds ->
  Forall2 (chosen config simple_mode) (removed_of ds) (added_of ds).
Proof.
  induction 1 as [|[item d] ds Hd _ IH]; [constructor|].
  destruct d; cbn; [done| |done]. by constructor.
Qed.

Lemma removed_of_elem (ds : list (Audio.t * UpgradeDecision)) (x : Audio.t) :
  x ∈ removed_of ds -> x ∈ ds.*1.
Proof.
  unfold removed_of. rewrite list_elem_of_omap. intros ([item d] & Hin & Hx).
  destruct d; cbn in Hx; try discriminate. injection Hx as <-.
  by apply (list_elem_of_fmap_2 fst) in Hin.
Qed.

Lemma omitted_of_elem (ds : list (Audio.t * UpgradeDecision)) (x : Audio.t) :
  x ∈ omitted_of ds -> x ∈ ds.*1.
Proof.
  unfold omitted_of. rewrite list_elem_of_omap. intros ([item d] & Hin & Hx).
  destruct d; cbn in Hx; try discriminate. injection Hx as <-.
  by apply (list_elem_of_fmap_2 fst) in Hin.
Qed.

Lemma removed_omitted_disjoint (ds : list (Audio.t * UpgradeDecision)) (x : Audio.t) :
  NoDup ds.*1 -> x ∈ removed_of ds -> x ∉ omitted_of ds.
Proof.
  induction ds as [|[item d] ds IH]; cbn.
  - intros _ Hx. by apply elem_of_nil in Hx.
  - intros [Hitem Hnodup]%NoDup_cons. destruct d; cbn.
    + by apply IH.
    + intros [->|Hx]%elem_of_cons Hom.
      * by apply omitted_of_elem in Hom.
      * by apply (IH Hnodup Hx).
    + intros Hx [->|Hom]%elem_of_cons.
      * by apply removed_of_elem in Hx.
      * by apply (IH Hnodup Hx).
Qed.
(** In simple mode the decision depends on the track only: no track is
    both replaced and omitted. *)
Lemma removed_omitted_disjoint_simple (config : PlexConfig)
    (ds : list (Audio.t * UpgradeDecision)) (x : Audio.t) :
  Forall (fun d => justified config true d.1 d.2) ds ->
  x ∈ removed_of ds -> x ∉ omitted_of ds.
Proof.
  intros Hds. rewrite Forall_forall in Hds.
  unfold removed_of, omitted_of. rewrite !list_elem_of_omap.
  intros ([item d] & Hin & Hx) ([item' d'] & Hin' & Hx').
  destruct d as [|r|]; cbn in Hx; try discriminate. injection Hx as ->.
  destruct d'; cbn in Hx'; try discriminate. injection Hx' as ->.
  destruct (Hds _ Hin) as (_ & sr & repl & Hs & Hr & _ & Hhead).
  destruct (Hds _ Hin') as (_ & sr' & repl' & Hs' & Hr' & Hnil).
  cbn in *. rewrite Hs in Hs'. injection Hs' as <-.
  rewrite Hr in Hr'. injection Hr' as <-.
  rewrite (Hnil eq_refl) in Hhead. by specialize (Hhead eq_refl).
Qed.
End batch_facts.

(** C8 (amended). After a scan that completes there is one decision per
    playlist entry, in playlist order, with: [items_to_remove] the entries
    decided Replaced, [items_to_add] their replacements, [items_ommited] the
    entries decided Omitted.  So an entry is recorded in at most one of
    [items_to_remove] and [items_ommited]; no track is in both lists when the
    playlist holds no track twice, and none in simple mode.  The two lists
    [items_to_add] and [items_to_remove] have the same length, and the entry
    at index [i] of [items_to_add] is the replacement chosen for the track at
    index [i] of [items_to_remove]: one of its ranked candidates, the first
    in simple mode. *)
Theorem C8_scan_lists `{Externals}
    (config : PlexConfig) (simple_mode : bool) (items : list Audio.t)
    (w w' : World) (b : Batch) :
  scan config simple_mode items w = (w', Ok b) ->
  (exists ds : list (Audio.t * UpgradeDecision),
     ds.*1 = items /\
     Forall (fun d => justified config simple_mode d.1 d.2) ds /\
     items_to_remove b = removed_of ds /\
     items_to_add b = added_of ds /\
     items_ommited b = omitted_of ds) /\
  length (items_to_add b) = length (items_to_remove b) /\
  (forall i item, items_to_remove b !! i = Some item ->
     exists r, items_to_add b !! i = Some r /\
               chosen config simple_mode item r) /\
  (NoDup items \/ simple_mode = true ->
   forall x, x ∈ items_to_remove b -> x ∉ items_ommited b).
Proof.
  intros Hscan. unfold scan in Hscan.
  apply scan_decisions in Hscan as (ds & Hitems & Hds & ->).
  destruct (record_decisions ds no_items) as (Hrem & Hadd & Hom).
  cbn in Hrem, Hadd, Hom. rewrite Hrem, Hadd, Hom.
  pose proof (replaced_pairs _ _ _ Hds) as Hpairs.
  split; [by exists ds|]. split; [|split].
  - symmetry. by eapply Forall2_length.
  - intros i item Hi.
    destruct (Forall2_lookup_l _ _ _ _ _ Hpairs Hi) as (r & Hr & Hc).
    by exists r.
  - intros [Hnodup| ->] x.
    + rewrite <- Hitems in Hnodup. by apply removed_omitted_disjoint.
    + by eapply removed_omitted_disjoint_simple.
Qed.

Lemma C8_witness :
  let b := {| items_to_remove := [Sample.song];
              items_to_add := [Sample.song_320];
              items_ommited := [] |} in
  length (items_to_add b) = length (items_to_remove b) /\
  forall x, x ∈ items_to_remove b -> x ∉ items_ommited b.
Proof.
  intros b.
  destruct (C8_scan_lists (H := Sample.externals Sample.catalog)
              Sample.default_config false [Sample.song; Sample.good]
              (Sample.world ["1"])
              (scan (H := Sample.externals Sample.catalog)
                 Sample.default_config false [Sample.song; Sample.good]
                 (Sample.world ["1"])).1 b)
    as (_ & Hlen & _ & Hdisjoint).
  - vm_compute. reflexivity.
  - split; [exact Hlen|]. apply Hdisjoint. left.
    apply NoDup_cons. split.
    + intros Hin. apply list_elem_of_singleton in Hin. discriminate Hin.
    + apply NoDup_singleton.
Defined.

(** C8 as stated fails for a playlist that holds a track twice: in manual
    mode the first entry can be replaced (response "0") and the second left
    as it is (empty response), and the track is then both in
    [items_to_remove] and in [items_ommited]. *)
Lemma C8_counterexample :
  let run :=
    scan (H := Sample.externals Sample.catalog) Sample.default_config false
      [Sample.song; Sample.song] (Sample.world ["0"; ""]) in
  run.2 = Ok {| items_to_remove := [Sample.song];
                items_to_add := [Sample.song_flac];
                items_ommited := [Sample.song] |} /\
  Sample.song ∈ [Sample.song] /\
  ~ (forall b, run.2 = Ok b ->
       forall x, x ∈ items_to_remove b -> x ∉ items_ommited b).
Proof.
  intros run.
  assert (run.2 = Ok {| items_to_remove := [Sample.song];
                        items_to_add := [Sample.song_flac];
                        items_ommited := [Sample.song] |}) as Hrun
    by (vm_compute; reflexivity).
  split; [exact Hrun|]. split; [by left|].
  intros Hclaim. apply (Hclaim _ Hrun Sample.song); by left.
Qed.

(** ** The decisions read back from the console *)

Section report_facts.
Context `{Externals}.

Lemma select_replacement_loop_world (item : Audio.t)
    (replacements : list Audio.t) (b b' : Batch) (flag : bool)
    (inp : list string) (w w' : World) :
  input_loop_on (select_replacement item replacements b) inp w
    = (w', Ok (b', flag)) ->
  exists inp',
    (flag = false /\ b' = b /\ w' = set_stdin inp' w) \/
    (flag = true /\
     exists r, r ∈ replacements /\ b' = append_replacement item r b /\
               w' = add_stdout [will_be_used r] (set_stdin inp' w)).
Proof.
  revert w. induction inp as [|s rest IH]; intros w; cbn [input_loop_on].
  - discriminate.
  - unfold select_replacement at 1.
    destruct (truthy_str (Some s)).
    + destruct (int s ≫= getitem replacements) as [r|] eqn:Hr.
      * rewrite M_bind_run. cbn. intros [= <- <- <-]. exists rest. right.
        split; [done|]. exists r. split; [|done].
        destruct (int s) as [k|]; [|done]. by eapply getitem_elem.
      * cbn. intros Hloop. destruct (IH _ Hloop) as (inp' & Hcases).
        by exists inp'.
    + cbn. intros [= <- <- <-]. exists rest. by left.
Qed.

Lemma decision_report_choices (n : nat) (l : list Audio.t) :
  decision_report (imap (fun i => choice (n + i)) l) = [].
Proof.
  revert n. induction l as [|x l IH]; intros n; [done|].
  cbn [imap]. unfold decision_report. rewrite filter_cons. cbn.
  rewrite <- (IH (S n)). unfold decision_report. f_equal.
  apply imap_ext. intros i y _. cbn. f_equal. lia.
Qed.

(** The lines a run of the loop body prints report the decision it
    records. *)
Lemma scan_item_report (config : PlexConfig) (simple_mode : bool)
    (b b' : Batch) (item : Audio.t) (w w' : World) :
  scan_item config simple_mode b item w = (w', Ok b') ->
  exists out d,
    stdout w' = stdout w ++ out /\
    b' = record_decision item d b /\
    forall rest,
      read_decisions None (decision_report out ++ rest)
      = (item, d) :: read_decisions None rest.
Proof.
  intros Hrun.
  destruct (check_quality_requirements config item) as [[|]|e] eqn:Hq.
  - rewrite (scan_item_meeting _ _ _ _ _ Hq) in Hrun.
    injection Hrun as <- <-. by exists [meets_requirements item], Kept.
  - destruct (search item) as [search_results|e] eqn:Hs; cycle 1.
    { unfold scan_item in Hrun. rewrite M_bind_run in Hrun.
      unfold lift at 1 in Hrun. rewrite Hq in Hrun. cbn [negb] in Hrun.
      rewrite M_bind_run in Hrun. cbn [print] in Hrun.
      rewrite M_bind_run in Hrun. unfold lift at 1 in Hrun.
      by rewrite Hs in Hrun. }
    destruct (rank item search_results) as [replacements|e] eqn:Hr; cycle 1.
    { unfold scan_item in Hrun. rewrite M_bind_run in Hrun.
      unfold lift at 1 in Hrun. rewrite Hq in Hrun. cbn [negb] in Hrun.
      rewrite M_bind_run in Hrun. cbn [print] in Hrun.
      rewrite M_bind_run in Hrun. unfold lift at 1 in Hrun.
      rewrite Hs in Hrun. rewrite M_bind_run in Hrun.
      unfold lift at 1 in Hrun. by rewrite Hr in Hrun. }
    rewrite (scan_item_failing _ _ _ _ _ _ _ Hq Hs Hr) in Hrun.
    destruct replacements as [|first others] eqn:E.
    { injection Hrun as <- <-.
      by exists [must_be_upgraded item; no_potential_replacement], Omitted. }
    rewrite <- E in *.
    destruct simple_mode.
    + injection Hrun as <- <-.
      by exists [must_be_upgraded item; will_be_used first], (Replaced first).
    + unfold input_loop in Hrun.
      destruct (input_loop_on _ _ _) as [w1 [[b1 flag]|e]] eqn:Hloop;
        [|done].
      apply select_replacement_loop_world in Hloop
        as (inp' & [(-> & -> & ->)|(-> & r & Hin & -> & ->)]).
      * injection Hrun as <- <-.
        exists (manual_lines item replacements ++ [no_replacement_selected]),
               Omitted.
        split; [by rewrite app_assoc|]. split; [done|]. intros rest.
        unfold manual_lines.
        change (must_be_upgraded item :: imap choice replacements)
          with ([must_be_upgraded item]
                ++ imap (fun i => choice (0 + i)) replacements).
        by rewrite !decision_report_app, decision_report_choices.
      * injection Hrun as <- <-.
        exists (manual_lines item replacements ++ [will_be_used r]),
               (Replaced r).
        split; [by rewrite app_assoc|]. split; [done|]. intros rest.
        unfold manual_lines.
        change (must_be_upgraded item :: imap choice replacements)
          with ([must_be_upgraded item]
                ++ imap (fun i => choice (0 + i)) replacements).
        by rewrite !decision_report_app, decision_report_choices.
  - unfold scan_item in Hrun. rewrite M_bind_run in Hrun.
    unfold lift at 1 in Hrun. by rewrite Hq in Hrun.
Qed.

(** The decisions read from the lines of a completed scan are the
    decisions behind its three lists, entry by entry. *)
Lemma scan_classification (config : PlexConfig) (simple_mode : bool)
    (items : list Audio.t) (w w' : World) (b : Batch) :
  scan config simple_mode items w = (w', Ok b) ->
  exists out,
    stdout w' = stdout w ++ out /\
    (classification out).*1 = items /\
    items_to_remove b = removed_of (classification out) /\
    items_to_add b = added_of (classification out) /\
    items_ommited b = omitted_of (classification out).
Proof.
  unfold scan.
  assert (forall items b0 b w w',
    for_each (scan_item config simple_mode) b0 items w = (w', Ok b) ->
    exists out,
      stdout w' = stdout w ++ out /\
      (classification out).*1 = items /\
      b = foldl (fun b d => record_decision d.1 d.2 b) b0
            (classification out)) as Hfold.
  { clear. intros items.
    induction items as [|item items IH]; intros b0 b w w'; cbn [for_each].
    - intros [= <- <-]. exists []. by rewrite app_nil_r.
    - rewrite M_bind_run.
      destruct (scan_item _ _ _ _ _) as [w1 [b1|e]] eqn:Hitem; [|done].
      intros Hrest.
      apply scan_item_report in Hitem as (out1 & d & Hout1 & -> & Hread).
      apply IH in Hrest as (out & Hout & Hitems & ->).
      exists (out1 ++ out). unfold classification in *.
      rewrite decision_report_app, Hread. cbn.
      rewrite Hitems, Hout, Hout1. by rewrite app_assoc. }
  intros (out & Hout & Hitems & ->)%Hfold. exists out.
  destruct (record_decisions (classification out) no_items)
    as (Hrem & Hadd & Hom).
  by repeat split.
Qed.
End report_facts.

(** ** Theorems: dry run and duplication *)

Section run_facts.
Context `{Externals}.

Lemma upgrade_playlist_not_found (config : PlexConfig) (playlist : nat)
    (duplicate simple_mode dry : bool) (w : World) :
  playlists w !! playlist = None ->
  upgrade_playlist config playlist duplicate simple_mode dry w
  = (w, Raise NotFound).
Proof.
  intros Hnone. unfold upgrade_playlist. rewrite M_bind_run.
  unfold fetch at 1. by rewrite Hnone.
Qed.

(** A run in place from [w1] and a dry run from [w] report the same
    decisions, when the two playlists have the same tracks and the worlds
    the same input. *)
Lemma in_place_report (config : PlexConfig) (n p : nat)
    (duplicate simple_mode : bool) (w w1 : World) (pl pl1 : Playlist.t) :
  playlists w !! p = Some pl ->
  playlists w1 !! n = Some pl1 ->
  Playlist.items pl1 = Playlist.items pl ->
  stdin w = stdin w1 ->
  decision_report (stdout w1) = decision_report (stdout w) ->
  decision_report
    (stdout (upgrade_playlist config n false simple_mode false w1).1)
  = decision_report
      (stdout (upgrade_playlist config p duplicate simple_mode true w).1).
Proof.
  intros Hp Hn Hitems Hin Hout.
  rewrite upgrade_playlist_in_place, upgrade_playlist_dry, Hp, Hn, Hitems.
  destruct (kc_scan config simple_mode (Playlist.items pl) w w1 Hin)
    as (inp & out & r & -> & ->).
  destruct r as [b|e]; cbn [fst stdout add_stdout];
    rewrite (decision_report_app (stdout w)), <- Hout, <- decision_report_app;
    [|done].
  pose proof (commit_decision_report n (Playlist.title pl1) b
                (add_stdout out (set_stdin inp w1))) as Hcommit.
  unfold unchanged in Hcommit.
  by destruct (commit _ _ _ _) as [w'' [[]|e]].
Qed.
End run_facts.

(** C7. A run with [dry] set makes no call to the server and leaves every
    playlist as it is; it answers the playlist it was given, and does so
    whenever the scan completes.  From the [__main__] block a dry run is
    started in simple mode and without duplication, and in simple mode the
    scan reads no input.  The decisions reported, track by track, are those a
    run without [dry] reports from the same world with the same mode,
    whether it duplicates the playlist or not. *)
Theorem C7_dry_run `{Externals}
    (config : PlexConfig) (playlist : nat) (duplicate simple_mode : bool)
    (w : World) :
  let dry_run := upgrade_playlist config playlist duplicate simple_mode true w in
  playlists dry_run.1 = playlists w /\
  calls dry_run.1 = calls w /\
  (forall p, dry_run.2 = Ok p -> p = playlist) /\
  (forall pl w' b,
     playlists w !! playlist = Some pl ->
     scan config simple_mode (Playlist.items pl) w = (w', Ok b) ->
     dry_run = (w', Ok playlist)) /\
  (forall w1,
     choose_dry_run w = (w1, Ok true) ->
     main_upgrade config playlist w
     = upgrade_playlist config playlist false true true w1) /\
  (simple_mode = true -> stdin dry_run.1 = stdin w) /\
  (forall duplicate',
     classification (stdout dry_run.1)
     = classification
         (stdout (upgrade_playlist config playlist duplicate' simple_mode
                    false w).1)).
Proof.
  intros dry_run. subst dry_run.
  repeat apply conj.
  - rewrite upgrade_playlist_dry.
    destruct (playlists w !! playlist) as [pl|]; [|done].
    destruct (scan_footprint config simple_mode (Playlist.items pl) w)
      as (inp & out & [b|e] & ->); done.
  - rewrite upgrade_playlist_dry.
    destruct (playlists w !! playlist) as [pl|]; [|done].
    destruct (scan_footprint config simple_mode (Playlist.items pl) w)
      as (inp & out & [b|e] & ->); done.
  - intros p. rewrite upgrade_playlist_dry.
    destruct (playlists w !! playlist) as [pl|]; [|done].
    destruct (scan _ _ _ _) as [w' [b|e]]; [|done].
    by intros [= <-].
  - intros pl w' b Hpl Hscan.
    by rewrite upgrade_playlist_dry, Hpl, Hscan.
  - intros w1 Hdry. unfold main_upgrade.
    rewrite M_bind_run, Hdry. by rewrite !M_bind_run.
  - intros ->. rewrite upgrade_playlist_dry.
    destruct (playlists w !! playlist) as [pl|]; [|done].
    pose proof (scan_simple_stdin config (Playlist.items pl) w) as Hstdin.
    unfold unchanged in Hstdin.
    by destruct (scan _ _ _ _) as [w' [b|e]].
  - intros duplicate'. unfold classification. f_equal. symmetry.
    destruct (playlists w !! playlist) as [pl|] eqn:Hpl; cycle 1.
    { by rewrite !upgrade_playlist_not_found. }
    destruct duplicate'.
    + rewrite (upgrade_playlist_duplicate _ _ _ _ _ Hpl).
      apply (in_place_report config _ playlist duplicate simple_mode w _ pl
               (Playlist.Build ("Copy of " +:+ Playlist.title pl)
                  (Playlist.summary pl) (Playlist.playlistType pl) false
                  (Playlist.items pl))); [done| |done|done|].
      * cbn. by apply list_lookup_middle.
      * cbn. rewrite decision_report_app. cbn. by rewrite app_nil_r.
    + by apply (in_place_report config _ playlist duplicate simple_mode
                  w w pl pl).
Qed.

Lemma C7_witness :
  main_upgrade (H := Sample.externals Sample.catalog)
    Sample.default_config 0%nat (Sample.world ["y"])
  = upgrade_playlist (H := Sample.externals Sample.catalog)
      Sample.default_config 0%nat false true true (Sample.world []).
Proof.
  apply (C7_dry_run (H := Sample.externals Sample.catalog)
           Sample.default_config 0%nat false true (Sample.world ["y"])).
  vm_compute. reflexivity.
Defined.

(** A run in place on playlist [n] changes the contents of playlist [n]
    at most, calls the server for playlist [n] only, and answers [n]. *)
Lemma in_place_frame `{Externals} (config : PlexConfig) (n : nat)
    (simple_mode : bool) (w : World) :
  let run := upgrade_playlist config n false simple_mode false w in
  (forall p, p <> n -> playlists run.1 !! p = playlists w !! p) /\
  (forall p, attributes <$> playlists run.1 !! p
             = attributes <$> playlists w !! p) /\
  calls_added (changes_only n) w run.1 /\
  (forall p, run.2 = Ok p -> p = n).
Proof.
  intros run. subst run. rewrite upgrade_playlist_in_place.
  destruct (playlists w !! n) as [pl|] eqn:Hpl; cycle 1.
  { by repeat split. }
  destruct (scan_footprint config simple_mode (Playlist.items pl) w)
    as (inp & out & [b|e] & ->); cycle 1.
  { repeat split; try done. exists []. by rewrite app_nil_r. }
  set (w1 := add_stdout out (set_stdin inp w)).
  pose proof (fun p Hp => commit_other_playlist n p (Playlist.title pl) b Hp w1)
    as Hother.
  pose proof (fun p => commit_attributes n p (Playlist.title pl) b w1)
    as Hattr.
  pose proof (commit_calls n (Playlist.title pl) b w1) as Hcalls.
  unfold unchanged in Hother, Hattr.
  destruct (commit _ _ _ _) as [w2 [[]|e]]; cbn [fst snd] in *.
  - repeat split; try done. by intros p [= <-].
  - repeat split; done.
Qed.

(** C9. With [duplicate] set and [dry] not set, the run first creates a
    playlist titled "Copy of " followed by the title of the original, with
    the summary, the playlist type and the tracks of the original; from there
    on it is the run in place on that new playlist: the scan reads the tracks
    of the copy, every [removeItems] and [addItems] call is for the copy, the
    copy keeps its title, summary and type, the answer is the copy, and the
    original playlist is in the end exactly what it was. *)
Theorem C9_duplicate_targets_copy `{Externals}
    (config : PlexConfig) (playlist : nat) (simple_mode : bool)
    (w : World) (pl : Playlist.t) :
  playlists w !! playlist = Some pl ->
  let new_playlist := length (playlists w) in
  let copy :=
    Playlist.Build ("Copy of " +:+ Playlist.title pl) (Playlist.summary pl)
      (Playlist.playlistType pl) false (Playlist.items pl) in
  let created_world :=
    add_stdout [created (Playlist.title copy)]
      (Playlist_create (Playlist.title copy) (Playlist.summary pl)
         (Playlist.items pl) (Playlist.playlistType pl) w).1 in
  let run := upgrade_playlist config playlist true simple_mode false w in
  playlists created_world = playlists w ++ [copy] /\
  calls created_world
    = calls w ++ [Call_create ("Copy of " +:+ Playlist.title pl)
                    (Playlist.summary pl) (Playlist.items pl)
                    (Playlist.playlistType pl)] /\
  run = upgrade_playlist config new_playlist false simple_mode false
          created_world /\
  playlists run.1 !! playlist = Some pl /\
  attributes <$> playlists run.1 !! new_playlist = Some (attributes copy) /\
  (exists cs, calls run.1 = calls created_world ++ cs /\
              Forall (changes_only new_playlist) cs) /\
  (forall p, run.2 = Ok p -> p = new_playlist).
Proof.
  intros Hpl new_playlist copy created_world run.
  assert (run = upgrade_playlist config new_playlist false simple_mode false
                  created_world) as Hrun
    by apply (upgrade_playlist_duplicate _ _ _ _ _ Hpl).
  destruct (in_place_frame config new_playlist simple_mode created_world)
    as (Hother & Hattr & Hcalls & Hanswer).
  rewrite <- Hrun in Hother, Hattr, Hcalls, Hanswer.
  assert (playlist <> new_playlist) as Hne.
  { apply lookup_lt_Some in Hpl. unfold new_playlist. lia. }
  repeat apply conj; try done.
  - rewrite (Hother _ Hne). cbn. by rewrite lookup_app_l_Some with (x := pl).
  - rewrite Hattr. cbn. by rewrite list_lookup_middle.
Qed.

Lemma C9_witness :
  let run :=
    upgrade_playlist (H := Sample.externals Sample.catalog)
      Sample.default_config 0%nat true true false (Sample.world ["n"]) in
  playlists run.1 !! 0%nat = Some Sample.favorites /\
  (forall p, run.2 = Ok p -> p = 1%nat) /\
  run.2 = Ok 1%nat.
Proof.
  intros run.
  destruct (C9_duplicate_targets_copy (H := Sample.externals Sample.catalog)
              Sample.default_config 0%nat true (Sample.world ["n"])
              Sample.favorites eq_refl)
    as (_ & _ & _ & Horiginal & _ & _ & Hanswer).
  split; [exact Horiginal|]. split; [exact Hanswer|].
  vm_compute. reflexivity.
Defined.

(** * Further properties *)

(** ** QualityPolicy: errors and order of the modes *)

(** X1. The quality check raises in one situation only: in default mode,
    for an mp3 or aac track that has no bitrate; the exception is then
    TypeError.  In every other situation it answers. *)
Theorem X1_check_quality_requirements_raises
    (config : PlexConfig) (item : Audio.t) (e : exn) :
  check_quality_requirements config item = Raise e <->
  e = TypeError /\
  requirement config = default_mode /\
  (Media.audioCodec (Audio.media0 item) = Some "mp3" \/
   Media.audioCodec (Audio.media0 item) = Some "aac") /\
  Media.bitrate (Audio.media0 item) = None.
Proof.
  unfold check_quality_requirements, requirement, codec_eqb.
  destruct (truthy_str (config !! "upgrade.force_all")).
  { split; [discriminate|]. by intros (_ & [=] & _). }
  destruct (truthy_str (config !! "upgrade.force_lossless")).
  { split; [discriminate|]. by intros (_ & [=] & _). }
  destruct (Media.bitrate (Audio.media0 item)) as [b|];
    destruct (decide (Media.audioCodec (Audio.media0 item) = Some "mp3"))
      as [E1|E1];
    destruct (decide (Media.audioCodec (Audio.media0 item) = Some "aac"))
      as [E2|E2];
    rewrite ?(bool_decide_eq_true_2 _ E1), ?(bool_decide_eq_false_2 _ E1),
            ?(bool_decide_eq_true_2 _ E2), ?(bool_decide_eq_false_2 _ E2);
    cbn; try destruct (b <? 320); try destruct (b <? 256); cbn;
    lazymatch goal with
    | |- Ok _ = Raise _ <-> _ =>
        split; [discriminate|];
        intros (_ & _ & [Hc|Hc] & Hb); congruence
    | |- Raise _ = Raise _ <-> _ =>
        split; [intros [= <-]; auto|by intros (-> & _)]
    end.
Qed.

(** X2. The modes are ordered by strictness, and the default mode is
    monotone in the bitrate: a track that passes in force_lossless mode
    passes in default mode, and a track that passes in default mode still
    passes with the same codec and a bitrate that is not lower. *)
Theorem X2_check_quality_requirements_order
    (lossless default : PlexConfig) (item better : Audio.t) (b b' : Z) :
  requirement lossless = force_lossless ->
  requirement default = default_mode ->
  (check_quality_requirements lossless item = Ok true ->
   check_quality_requirements default item = Ok true) /\
  (Media.audioCodec (Audio.media0 better)
     = Media.audioCodec (Audio.media0 item) ->
   Media.bitrate (Audio.media0 item) = Some b ->
   Media.bitrate (Audio.media0 better) = Some b' ->
   b <= b' ->
   check_quality_requirements default item = Ok true ->
   check_quality_requirements default better = Ok true).
Proof.
  intros Hl Hd.
  destruct (requirement_force_lossless _ Hl) as [Hl1 Hl2].
  destruct (requirement_default _ Hd) as [Hd1 Hd2].
  unfold check_quality_requirements, codec_eqb.
  rewrite Hl1, Hl2, Hd1, Hd2. split.
  - intros [= Hcodec%bool_decide_eq_true].
    rewrite !elem_of_cons, elem_of_nil in Hcodec.
    destruct Hcodec as [->|[->|[]]]; reflexivity.
  - intros -> -> -> Hle.
    destruct (decide (Media.audioCodec (Audio.media0 item) = Some "mp3"))
      as [E1|E1];
    destruct (decide (Media.audioCodec (Audio.media0 item) = Some "aac"))
      as [E2|E2];
    rewrite ?(bool_decide_eq_true_2 _ E1), ?(bool_decide_eq_false_2 _ E1),
            ?(bool_decide_eq_true_2 _ E2), ?(bool_decide_eq_false_2 _ E2);
    cbn;
    destruct (Z.ltb_spec b 320), (Z.ltb_spec b' 320),
             (Z.ltb_spec b 256), (Z.ltb_spec b' 256);
    cbn; try done; lia.
Qed.

Lemma X2_witness :
  check_quality_requirements Sample.default_config Sample.song_flac = Ok true.
Proof.
  apply (proj1 (X2_check_quality_requirements_order
                  Sample.lossless_config Sample.default_config
                  Sample.song_flac Sample.song_flac 900 900
                  ltac:(vm_compute; reflexivity)
                  ltac:(vm_compute; reflexivity))).
  vm_compute. reflexivity.
Defined.

(** X3. The check reads the two keys [upgrade.force_all] and
    [upgrade.force_lossless] and nothing else of the configuration, and it
    reads them as Python truth values of strings: every non-empty value of
    [upgrade.force_all], "false" and "0" included, makes the check fail
    every track, while a missing key and an empty value do not. *)
Theorem X3_check_quality_requirements_config
    (config config' : PlexConfig) (item : Audio.t) (value : string) :
  (config !! "upgrade.force_all" = config' !! "upgrade.force_all" ->
   config !! "upgrade.force_lossless" = config' !! "upgrade.force_lossless" ->
   check_quality_requirements config item
   = check_quality_requirements config' item) /\
  (value <> "" ->
   check_quality_requirements (<["upgrade.force_all" := value]> config) item
   = Ok false) /\
  check_quality_requirements (<["upgrade.force_all" := ""]> config) item
  = check_quality_requirements (delete "upgrade.force_all" config) item.
Proof.
  unfold check_quality_requirements. repeat split.
  - by intros -> ->.
  - intros Hvalue. rewrite lookup_insert_eq.
    by rewrite (truthy_str_nonempty _ Hvalue).
  - rewrite lookup_insert_eq, lookup_delete_eq.
    by rewrite lookup_insert_ne, lookup_delete_ne.
Qed.

Lemma X3_witness :
  check_quality_requirements
    (<["upgrade.force_all" := "false"]> Sample.default_config) Sample.song_flac
  = Ok false.
Proof.
  apply (proj1 (proj2 (X3_check_quality_requirements_config
                         Sample.default_config Sample.default_config
                         Sample.song_flac "false"))).
  discriminate.
Defined.

(** ** CandidateRanker: what is kept, when it fails, what comes first *)

Lemma comprehension_filter {A} (p : A -> result bool) (l l' : list A) :
  comprehension p l = Ok l' -> l' = filter (fun x => p x = Ok true) l.
Proof.
  revert l'. induction l as [|x l IH]; intros l' Hc; cbn in Hc.
  - by injection Hc as <-.
  - inv_bind Hc. injection Hc as <-. rewrite filter_cons, <- (IH _ Ha0).
    destruct (decide (p x = Ok true)) as [Hx|Hx].
    + rewrite Hx in Ha. by injection Ha as <-.
    + destruct a; [by rewrite Ha in Hx|done].
Qed.

Lemma comprehension_answers {A} (p : A -> result bool) (l : list A) :
  (forall x, x ∈ l -> exists keep, p x = Ok keep) ->
  exists l', comprehension p l = Ok l'.
Proof.
  induction l as [|x l IH]; intros Hp; cbn; [by eexists|].
  destruct (Hp x) as [keep ->]; [left|].
  destruct IH as [l' ->]; [intros y Hy; apply Hp; by right|].
  cbn. by eexists.
Qed.

Lemma comprehension_raises {A} (p : A -> result bool) (l : list A) (e : exn) :
  (exists x, x ∈ l /\ p x = Raise e) ->
  (forall x e', x ∈ l -> p x = Raise e' -> e' = e) ->
  comprehension p l = Raise e.
Proof.
  induction l as [|x l IH]; intros (y & Hy & Hraise) Hsame.
  - by apply elem_of_nil in Hy.
  - cbn. destruct (p x) as [keep|e'] eqn:Hx.
    + cbn. rewrite IH; [done| |].
      * apply elem_of_cons in Hy as [->|Hy]; [congruence|eauto].
      * intros z e' Hz. apply Hsame. by right.
    + cbn. f_equal. apply (Hsame x); [left|done].
Qed.

Lemma sorted_answers {A K} (lt : K -> K -> bool) (key : A -> option K)
    (reverse : bool) (l : list A) :
  (forall x, x ∈ l -> is_Some (key x)) ->
  sorted lt key reverse l = Ok (stable_sort lt key reverse l).
Proof.
  intros Hkeys. unfold sorted.
  assert (existsb (fun x => bool_decide (key x = None)) l = false) as ->;
    [|by rewrite andb_false_r].
  apply not_true_is_false. intros (x & Hx & Hnone)%existsb_exists.
  apply bool_decide_eq_true in Hnone. apply list_elem_of_In in Hx.
  destruct (Hkeys x Hx) as [k Hk]. congruence.
Qed.

Section rank_more.
Context `{Externals}.

Lemma rank_filter (item : Audio.t) (search_results out : list Audio.t) :
  rank item search_results = Ok out ->
  out ≡ₚ filter (fun r => artist_matches item r = Ok true)
           (filter (fun r => higher_bitrate item r = Ok true) search_results).
Proof.
  unfold rank. intros Hr. inv_bind Hr.
  apply sorted_perm in Hr, Ha1. rewrite Hr, Ha1.
  apply comprehension_filter in Ha as ->.
  by apply comprehension_filter in Ha0 as ->.
Qed.

Lemma higher_bitrate_answers (item r : Audio.t) :
  (exists keep, higher_bitrate item r = Ok keep) <->
  (truthy_int (bitrate_of r) = true -> is_Some (bitrate_of item)).
Proof.
  unfold higher_bitrate, int_gt, int_lt.
  destruct (truthy_int (bitrate_of r)) eqn:Ht.
  - destruct (bitrate_of r) as [b|]; [|done].
    destruct (bitrate_of item) as [b0|].
    + split; eauto.
    + split; [by intros [? [=]]|]. intros Hsome.
      by destruct (Hsome eq_refl).
  - split; [done|eauto].
Qed.

Lemma artist_matches_answers (item r : Audio.t) :
  (exists keep, artist_matches item r = Ok keep) <->
  is_Some (artist item) /\ is_Some (artist r).
Proof.
  unfold artist_matches, casefold_of.
  destruct (artist item) as [a|], (artist r) as [a'|]; cbn;
    (split; [intros [keep Hk]; try discriminate; eauto
            |intros [[? ?] [? ?]]; try discriminate; eauto]).
Qed.
End rank_more.

Lemma comprehension_each {A} (p : A -> result bool) (l l' : list A) :
  comprehension p l = Ok l' ->
  forall x, x ∈ l -> exists keep, p x = Ok keep.
Proof.
  revert l'. induction l as [|y l IH]; intros l' Hc x Hx; cbn in Hc.
  - by apply elem_of_nil in Hx.
  - inv_bind Hc. apply elem_of_cons in Hx as [->|Hx]; eauto.
Qed.

(** X4. The ranked list is a rearrangement of exactly the search results
    that pass both conditions (a bitrate above the original's, and an artist
    name that contains the original's): none is lost, none is added, and each
    occurs as often as the search returned it. *)
Theorem X4_rank_rearranges_qualifying `{Externals}
    (item : Audio.t) (search_results out : list Audio.t) :
  rank item search_results = Ok out ->
  out ≡ₚ filter (fun r => higher_bitrate item r = Ok true /\
                          artist_matches item r = Ok true) search_results.
Proof.
  intros Hrank. rewrite (rank_filter _ _ _ Hrank), list_filter_filter.
  apply reflexive_eq, list_filter_iff. intros r. tauto.
Qed.

Lemma X4_witness :
  [Sample.song_flac; Sample.song_320; Sample.song_feat]
  ≡ₚ filter (fun r =>
               higher_bitrate Sample.song r = Ok true /\
               artist_matches (H := Sample.externals Sample.catalog)
                 Sample.song r = Ok true) Sample.catalog.
Proof.
  apply (X4_rank_rearranges_qualifying (H := Sample.externals Sample.catalog)).
  vm_compute. reflexivity.
Defined.

(** X5. Ranking answers exactly when the original has a bitrate if some
    search result has a non-zero one, and the original and every search
    result with a higher bitrate have an artist; the two sorts never raise.
    Otherwise it raises TypeError (the original has no bitrate to compare
    with) or, when the bitrates can be compared, AttributeError (a missing
    artist has no [casefold]). *)
Theorem X5_rank_answers `{Externals}
    (item : Audio.t) (search_results : list Audio.t) :
  let comparable :=
    forall r, r ∈ search_results ->
      truthy_int (bitrate_of r) = true -> is_Some (bitrate_of item) in
  let named :=
    forall r, r ∈ search_results ->
      higher_bitrate item r = Ok true ->
      is_Some (artist item) /\ is_Some (artist r) in
  ((exists out, rank item search_results = Ok out) <-> comparable /\ named) /\
  ((exists r, r ∈ search_results /\ truthy_int (bitrate_of r) = true) ->
   bitrate_of item = None ->
   rank item search_results = Raise TypeError) /\
  (comparable ->
   (exists r, r ∈ search_results /\ higher_bitrate item r = Ok true /\
              (artist item = None \/ artist r = None)) ->
   rank item search_results = Raise AttributeError).
Proof.
  intros comparable named.
  assert (comparable ->
          exists l1, comprehension (higher_bitrate item) search_results = Ok l1)
    as Hfirst.
  { intros Hc. apply comprehension_answers. intros r Hr.
    apply higher_bitrate_answers. by apply Hc. }
  split; [split|split].
  - intros [out Hrank]. unfold rank in Hrank. inv_bind Hrank. split.
    + intros r Hr. apply higher_bitrate_answers.
      by eapply comprehension_each.
    + intros r Hr Hhigher. apply artist_matches_answers.
      eapply comprehension_each; [exact Ha0|].
      by eapply comprehension_keeps.
  - intros [Hc Hn]. destruct (Hfirst Hc) as [l1 Hl1].
    assert (exists l2, comprehension (artist_matches item) l1 = Ok l2)
      as [l2 Hl2].
    { apply comprehension_answers. intros r Hr.
      destruct (comprehension_elem _ _ _ Hl1 _ Hr) as [Hin Hhigher].
      apply artist_matches_answers. by apply Hn. }
    unfold rank. rewrite Hl1. cbn. rewrite Hl2. cbn.
    rewrite sorted_answers; cycle 1.
    { intros r Hr.
      destruct (comprehension_elem _ _ _ Hl2 _ Hr) as [_ Hart].
      apply artist_matches_true in Hart as (a & a' & _ & Ha' & _).
      by eapply artist_sort_key_Some. }
    cbn. rewrite sorted_answers; [by eexists|].
    intros r Hr. rewrite stable_sort_perm in Hr.
    destruct (comprehension_elem _ _ _ Hl2 _ Hr) as [Hr1 _].
    destruct (comprehension_elem _ _ _ Hl1 _ Hr1) as [_ Hhigher].
    apply higher_bitrate_true in Hhigher as (b & _ & -> & _). eauto.
  - intros (r & Hr & Htruthy) Hnone. unfold rank.
    rewrite (comprehension_raises _ _ TypeError); [done| |].
    + exists r. split; [done|].
      unfold higher_bitrate, int_gt, int_lt. rewrite Htruthy, Hnone.
      by destruct (bitrate_of r).
    + intros x e' _. unfold higher_bitrate, int_gt, int_lt.
      destruct (truthy_int (bitrate_of x)); [|done].
      destruct (bitrate_of item), (bitrate_of x); by intros [=].
  - intros Hc (r & Hr & Hhigher & Hmissing).
    destruct (Hfirst Hc) as [l1 Hl1]. unfold rank. rewrite Hl1. cbn.
    rewrite (comprehension_raises _ _ AttributeError); [done| |].
    + exists r. split; [by eapply comprehension_keeps|].
      unfold artist_matches, casefold_of.
      destruct Hmissing as [-> | ->]; [done|]. by destruct (artist item).
    + intros x e' _. unfold artist_matches, casefold_of.
      destruct (artist item), (artist x); cbn; by intros [=].
Qed.

Lemma X5_witness :
  rank (H := Sample.externals Sample.catalog)
    (Audio.Build 1 "Song" None (Some "Artist A")
       (Media.Build (Some "mp3") None))
    Sample.catalog
  = Raise TypeError.
Proof.
  apply (X5_rank_answers (H := Sample.externals Sample.catalog)).
  - exists Sample.song_320. split; [|reflexivity].
    apply elem_of_cons. right. apply elem_of_cons. left. reflexivity.
  - reflexivity.
Defined.

(** X6. The first candidate of the ranked list, the one simple mode takes,
    has the highest bitrate of all the search results that pass both
    conditions. *)
Theorem X6_rank_first_is_best `{Externals}
    (item first : Audio.t) (search_results others : list Audio.t) :
  rank item search_results = Ok (first :: others) ->
  forall r, r ∈ search_results ->
    higher_bitrate item r = Ok true ->
    artist_matches item r = Ok true ->
    exists b best, bitrate_of r = Some b /\ bitrate_of first = Some best /\
                   b <= best.
Proof.
  intros Hrank r Hr Hhigher Hart.
  assert (r ∈ first :: others) as Hin.
  { rewrite (rank_filter _ _ _ Hrank).
    apply list_elem_of_filter. split; [done|].
    by apply list_elem_of_filter. }
  pose proof (rank_descending _ _ _ Hrank) as Hsorted.
  apply StronglySorted_inv in Hsorted as [_ Hfirst].
  apply elem_of_cons in Hin as [->|Hin].
  - apply higher_bitrate_true in Hhigher as (b & _ & Hb & _).
    exists b, b. by repeat split.
  - rewrite Forall_forall in Hfirst.
    destruct (Hfirst r Hin) as (best & b & Hbest & Hb & Hle).
    by exists b, best.
Qed.

Lemma X6_witness :
  exists b best, bitrate_of Sample.song_320 = Some b /\
                 bitrate_of Sample.song_flac = Some best /\ b <= best.
Proof.
  apply (X6_rank_first_is_best (H := Sample.externals Sample.catalog)
           Sample.song Sample.song_flac Sample.catalog
           [Sample.song_320; Sample.song_feat]).
  - vm_compute. reflexivity.
  - apply elem_of_cons. right. apply elem_of_cons. left. reflexivity.
  - vm_compute. reflexivity.
  - vm_compute. reflexivity.
Defined.

(** ** The scan: what the three lists hold *)

Section scan_more.
Context `{Externals}.

Lemma scan_batch (config : PlexConfig) (simple_mode : bool)
    (items : list Audio.t) (w w' : World) (b : Batch) :
  scan config simple_mode items w = (w', Ok b) ->
  exists ds : list (Audio.t * UpgradeDecision),
    ds.*1 = items /\
    Forall (fun d => justified config simple_mode d.1 d.2) ds /\
    items_to_remove b = removed_of ds /\
    items_to_add b = added_of ds /\
    items_ommited b = omitted_of ds.
Proof.
  intros Hscan. unfold scan in Hscan.
  apply scan_decisions in Hscan as (ds & Hitems & Hds & ->).
  destruct (record_decisions ds no_items) as (Hrem & Hadd & Hom).
  cbn in Hrem, Hadd, Hom. exists ds.
  split; [exact Hitems|]. split; [exact Hds|].
  split; [exact Hrem|]. split; [exact Hadd|exact Hom].
Qed.

Lemma removed_of_sublist (ds : list (Audio.t * UpgradeDecision)) :
  removed_of ds `sublist_of` ds.*1.
Proof.
  induction ds as [|[item d] ds IH]; [done|].
  destruct d; cbn; by constructor.
Qed.

Lemma omitted_of_sublist (ds : list (Audio.t * UpgradeDecision)) :
  omitted_of ds `sublist_of` ds.*1.
Proof.
  induction ds as [|[item d] ds IH]; [done|].
  destruct d; cbn; by constructor.
Qed.

Lemma decisions_count (config : PlexConfig) (simple_mode : bool)
    (ds : list (Audio.t * UpgradeDecision)) :
  Forall (fun d => justified config simple_mode d.1 d.2) ds ->
  length ds.*1
  = (length (removed_of ds) + length (omitted_of ds)
     + length (filter (fun x => check_quality_requirements config x = Ok true)
                 ds.*1))%nat.
Proof.
  induction 1 as [|[item d] ds Hd _ IH]; [done|].
  cbn [fmap list_fmap fst]. rewrite filter_cons.
  destruct d as [|r|]; cbn in Hd.
  - change (removed_of ((item, Kept) :: ds)) with (removed_of ds).
    change (omitted_of ((item, Kept) :: ds)) with (omitted_of ds).
    rewrite decide_True by done. cbn [length]. lia.
  - change (removed_of ((item, Replaced r) :: ds))
      with (item :: removed_of ds).
    change (omitted_of ((item, Replaced r) :: ds)) with (omitted_of ds).
    destruct Hd as [Hq _]. rewrite decide_False by congruence.
    cbn [length]. lia.
  - change (removed_of ((item, Omitted) :: ds)) with (removed_of ds).
    change (omitted_of ((item, Omitted) :: ds)) with (item :: omitted_of ds).
    destruct Hd as [Hq _]. rewrite decide_False by congruence.
    cbn [length]. lia.
Qed.
End scan_more.

(** X7. A track is never replaced by itself: the replacement at index [i]
    of [items_to_add] is a result of the search for the track at index [i]
    of [items_to_remove], it has a strictly higher bitrate, and so it is a
    different track. *)
Theorem X7_replacement_is_another_track `{Externals}
    (config : PlexConfig) (simple_mode : bool) (items : list Audio.t)
    (w w' : World) (b : Batch) (i : nat) (item r : Audio.t) :
  scan config simple_mode items w = (w', Ok b) ->
  items_to_remove b !! i = Some item ->
  items_to_add b !! i = Some r ->
  r <> item /\
  (exists search_results, search item = Ok search_results /\
                          r ∈ search_results) /\
  exists rate rate0, bitrate_of r = Some rate /\
                     bitrate_of item = Some rate0 /\ rate0 < rate.
Proof.
  intros (ds & _ & Hds & -> & -> & _)%scan_batch Hitem Hr.
  pose proof (replaced_pairs _ _ _ Hds) as Hpairs.
  destruct (Forall2_lookup_lr _ _ _ _ _ _ Hpairs Hitem Hr)
    as (_ & sr & repl & Hsearch & Hrank & Hin & _).
  destruct (rank_elem _ _ _ Hrank _ Hin) as (Hsr & Hhigher & _).
  apply higher_bitrate_true in Hhigher as (rate & rate0 & Hrate & Hrate0 & _ & Hlt).
  split; [|split].
  - intros ->. rewrite Hrate in Hrate0. injection Hrate0 as ->. lia.
  - by exists sr.
  - by exists rate, rate0.
Qed.

Lemma X7_witness :
  Sample.song_320 <> Sample.song /\
  (exists search_results,
     search (H := Sample.externals Sample.catalog) Sample.song
       = Ok search_results /\
     Sample.song_320 ∈ search_results) /\
  exists rate rate0, bitrate_of Sample.song_320 = Some rate /\
                     bitrate_of Sample.song = Some rate0 /\ rate0 < rate.
Proof.
  apply (X7_replacement_is_another_track
           (H := Sample.externals Sample.catalog)
           Sample.default_config false [Sample.song; Sample.good]
           (Sample.world ["1"])
           (scan (H := Sample.externals Sample.catalog)
              Sample.default_config false [Sample.song; Sample.good]
              (Sample.world ["1"])).1
           {| items_to_remove := [Sample.song];
              items_to_add := [Sample.song_320];
              items_ommited := [] |} 0%nat).
  - vm_compute. reflexivity.
  - reflexivity.
  - reflexivity.
Defined.

(** X8. The scan keeps the order of the playlist and accounts for every
    entry: [items_to_remove] and [items_ommited] are subsequences of the
    playlist, every track in them fails the quality check, and the entries
    of the playlist are as many as the entries of these two lists together
    with the tracks that pass the check. *)
Theorem X8_scan_accounts_for_every_entry `{Externals}
    (config : PlexConfig) (simple_mode : bool) (items : list Audio.t)
    (w w' : World) (b : Batch) :
  scan config simple_mode items w = (w', Ok b) ->
  items_to_remove b `sublist_of` items /\
  items_ommited b `sublist_of` items /\
  (forall x, x ∈ items_to_remove b ++ items_ommited b ->
     check_quality_requirements config x = Ok false) /\
  length items
  = (length (items_to_remove b) + length (items_ommited b)
     + length (filter (fun x => check_quality_requirements config x = Ok true)
                 items))%nat.
Proof.
  intros (ds & <- & Hds & -> & _ & ->)%scan_batch.
  split; [apply removed_of_sublist|].
  split; [apply omitted_of_sublist|].
  split; [|by eapply decisions_count].
  rewrite Forall_forall in Hds.
  intros x [Hx|Hx]%elem_of_app.
  - unfold removed_of in Hx. apply list_elem_of_omap in Hx as ([y d] & Hin & Hy).
    destruct d; cbn in Hy; try discriminate. injection Hy as ->.
    by destruct (Hds _ Hin) as [Hq _].
  - unfold omitted_of in Hx. apply list_elem_of_omap in Hx as ([y d] & Hin & Hy).
    destruct d; cbn in Hy; try discriminate. injection Hy as ->.
    by destruct (Hds _ Hin) as [Hq _].
Qed.

Lemma X8_witness :
  let b := {| items_to_remove := [Sample.song];
              items_to_add := [Sample.song_320];
              items_ommited := [] |} in
  items_to_remove b `sublist_of` [Sample.song; Sample.good] /\
  items_ommited b `sublist_of` [Sample.song; Sample.good] /\
  (forall x, x ∈ items_to_remove b ++ items_ommited b ->
     check_quality_requirements Sample.default_config x = Ok false) /\
  length [Sample.song; Sample.good]
  = (length (items_to_remove b) + length (items_ommited b)
     + length (filter (fun x => check_quality_requirements
                                  Sample.default_config x = Ok true)
                 [Sample.song; Sample.good]))%nat.
Proof.
  intros b.
  apply (X8_scan_accounts_for_every_entry
           (H := Sample.externals Sample.catalog)
           Sample.default_config false [Sample.song; Sample.good]
           (Sample.world ["1"])
           (scan (H := Sample.externals Sample.catalog)
              Sample.default_config false [Sample.song; Sample.good]
              (Sample.world ["1"])).1 b).
  vm_compute. reflexivity.
Defined.

(** ** Questions on the keyboard *)

Lemma input_loop_skip {A} (body : string -> M (option A)) (w : World)
    (s : string) (rest : list string) :
  (forall w', body s w' = (w', Ok None)) ->
  stdin w = s :: rest ->
  input_loop body w = input_loop body (set_stdin rest w).
Proof.
  intros Hbody Hin. rewrite (input_loop_cons _ _ s rest Hin), Hbody.
  reflexivity.
Qed.

Lemma input_loop_leave {A} (body : string -> M (option A)) (w : World)
    (s : string) (rest : list string) (a : A) :
  (forall w', body s w' = (w', Ok (Some a))) ->
  stdin w = s :: rest ->
  input_loop body w = (set_stdin rest w, Ok a).
Proof.
  intros Hbody Hin. by rewrite (input_loop_cons _ _ s rest Hin), Hbody.
Qed.

Lemma input_loop_skip_all {A} (body : string -> M (option A)) (w : World)
    (junk rest : list string) :
  Forall (fun s => forall w', body s w' = (w', Ok None)) junk ->
  stdin w = junk ++ rest ->
  input_loop body w = input_loop body (set_stdin rest w).
Proof.
  intros Hjunk. revert w.
  induction Hjunk as [|s junk Hs _ IH]; intros w Hin; cbn in Hin.
  - by rewrite <- Hin, set_stdin_stdin.
  - rewrite (input_loop_skip _ _ s (junk ++ rest) Hs Hin).
    by rewrite (IH (set_stdin (junk ++ rest) w)).
Qed.

(** A loop whose body only looks at the line changes nothing but the
    input. *)
Lemma input_loop_reads_only {A} (body : string -> M (option A)) (w : World) :
  (forall s, exists o, forall w', body s w' = (w', Ok o)) ->
  exists inp r, input_loop body w = (set_stdin inp w, r).
Proof.
  intros Hbody. unfold input_loop.
  assert (forall inp inp0,
            exists inp' r,
              input_loop_on body inp (set_stdin inp0 w)
              = (set_stdin inp' w, r)) as Hloop.
  { induction inp as [|s rest IH]; intros inp0; cbn.
    - by exists inp0, (Raise EOFError).
    - destruct (Hbody s) as [o Ho]. rewrite Ho.
      destruct o as [a|]; [by exists rest, (Ok a)|apply IH]. }
  destruct (Hloop (stdin w) (stdin w)) as (inp' & r & Hrun).
  rewrite set_stdin_stdin in Hrun. by exists inp', r.
Qed.

Section questions.
Context `{Externals}.

Lemma yes_or_default_no_pure (answer : string) :
  exists o, forall w, yes_or_default_no answer w = (w, Ok o).
Proof.
  unfold yes_or_default_no.
  destruct (String.eqb (lower answer) "y"); [by eexists|].
  destruct (_ || _); by eexists.
Qed.

Lemma choose_spotdl_download_reads_only (w : World) :
  exists inp r, choose_spotdl_download w = (set_stdin inp w, r).
Proof. apply input_loop_reads_only, yes_or_default_no_pure. Qed.

Lemma yes_or_default_no_unrecognised (answer : string) (w : World) :
  answer <> "" -> lower answer <> "y" -> lower answer <> "n" ->
  yes_or_default_no answer w = (w, Ok None).
Proof.
  intros Hne Hy Hn. unfold yes_or_default_no.
  rewrite (proj2 (String.eqb_neq _ _) Hy), (proj2 (String.eqb_neq _ _) Hn).
  by rewrite (truthy_str_nonempty _ Hne).
Qed.

Lemma yes_or_default_no_recognised (answer : string) (w : World) :
  answer = "" \/ lower answer = "y" \/ lower answer = "n" ->
  yes_or_default_no answer w
  = (w, Ok (Some (String.eqb (lower answer) "y"))).
Proof.
  intros Hrec. unfold yes_or_default_no.
  destruct (String.eqb (lower answer) "y") eqn:Hy; [done|].
  destruct Hrec as [->|[Hyes|Hno]].
  - done.
  - apply String.eqb_eq in Hyes. congruence.
  - apply String.eqb_eq in Hno. rewrite Hno. by rewrite orb_true_r.
Qed.
End questions.

(** X9. The four yes-or-no questions that default to no
    ([choose_duplication], [choose_dry_run],
    [choose_simple_replacement_mode], [choose_spotdl_download]) skip every
    line that is neither empty nor, in lower case, "y" or "n", and answer
    from the first line that is: yes for "y", no for "n" and for the empty
    line.  They consume the lines up to that one and change nothing else. *)
Theorem X9_questions_default_no `{Externals}
    (w : World) (junk rest : list string) (answer : string) :
  stdin w = junk ++ answer :: rest ->
  Forall (fun s => s <> "" /\ lower s <> "y" /\ lower s <> "n") junk ->
  answer = "" \/ lower answer = "y" \/ lower answer = "n" ->
  let outcome := (set_stdin rest w, Ok (String.eqb (lower answer) "y")) in
  choose_duplication w = outcome /\
  choose_dry_run w = outcome /\
  choose_simple_replacement_mode w = outcome /\
  choose_spotdl_download w = outcome.
Proof.
  intros Hin Hjunk Hanswer outcome.
  assert (input_loop yes_or_default_no w = outcome) as Hloop.
  { rewrite (input_loop_skip_all _ _ junk (answer :: rest)); [| |done].
    - rewrite (input_loop_leave _ _ answer rest
                 (String.eqb (lower answer) "y")); [done| |done].
      intros w'. by apply yes_or_default_no_recognised.
    - eapply Forall_impl; [exact Hjunk|].
      intros s (Hne & Hy & Hn) w'. by apply yes_or_default_no_unrecognised. }
  by repeat split.
Qed.

Lemma X9_witness :
  choose_dry_run (H := Sample.externals Sample.catalog)
    (Sample.world ["maybe"; "Y"; "n"])
  = (set_stdin ["n"] (Sample.world ["maybe"; "Y"; "n"]), Ok true).
Proof.
  apply (X9_questions_default_no (H := Sample.externals Sample.catalog)
           (Sample.world ["maybe"; "Y"; "n"]) ["maybe"] ["n"] "Y").
  - reflexivity.
  - constructor; [|constructor].
    split; [discriminate|].
    split; intros Heq; vm_compute in Heq; discriminate Heq.
  - right. left. reflexivity.
Defined.

(** X10. [choose_continue] skips the same lines and answers from the first
    line that is empty or, in lower case, "y" or "n"; here the empty line
    means yes. *)
Theorem X10_choose_continue_default_yes `{Externals}
    (w : World) (junk rest : list string) (answer : string) :
  stdin w = junk ++ answer :: rest ->
  Forall (fun s => s <> "" /\ lower s <> "y" /\ lower s <> "n") junk ->
  answer = "" \/ lower answer = "y" \/ lower answer = "n" ->
  choose_continue w
  = (set_stdin rest w,
     Ok (bool_decide (answer = "") || String.eqb (lower answer) "y")).
Proof.
  intros Hin Hjunk Hanswer. unfold choose_continue.
  rewrite (input_loop_skip_all _ _ junk (answer :: rest)); [| |done].
  - rewrite (input_loop_leave _ _ answer rest
               (bool_decide (answer = "") || String.eqb (lower answer) "y"));
      [done| |done].
    intros w'. destruct (decide (answer = "")) as [->|Hne].
    { done. }
    rewrite (truthy_str_nonempty _ Hne), (bool_decide_eq_false_2 _ Hne).
    cbn. destruct (String.eqb (lower answer) "y") eqn:Hy; [done|].
    destruct Hanswer as [?|[Hyes|Hno]]; [done| |].
    + apply String.eqb_eq in Hyes. congruence.
    + apply String.eqb_eq in Hno. by rewrite Hno.
  - eapply Forall_impl; [exact Hjunk|].
    intros s (Hne & Hy & Hn) w'.
    rewrite (truthy_str_nonempty _ Hne).
    by rewrite (proj2 (String.eqb_neq _ _) Hy),
               (proj2 (String.eqb_neq _ _) Hn).
Qed.

Lemma X10_witness :
  choose_continue (H := Sample.externals Sample.catalog)
    (Sample.world ["what"; ""; "n"])
  = (set_stdin ["n"] (Sample.world ["what"; ""; "n"]), Ok true).
Proof.
  apply (X10_choose_continue_default_yes
           (H := Sample.externals Sample.catalog)
           (Sample.world ["what"; ""; "n"]) ["what"] ["n"] "").
  - reflexivity.
  - constructor; [|constructor].
    split; [discriminate|].
    split; intros Heq; vm_compute in Heq; discriminate Heq.
  - left. reflexivity.
Defined.

(** X11. When no line of the remaining input is empty or, in lower case,
    "y" or "n", each of the five questions reads the input to its end and
    raises EOFError. *)
Theorem X11_questions_end_of_input `{Externals} (w : World) :
  Forall (fun s => s <> "" /\ lower s <> "y" /\ lower s <> "n") (stdin w) ->
  let outcome := (set_stdin [] w, Raise EOFError) in
  choose_continue w = outcome /\
  choose_duplication w = outcome /\
  choose_dry_run w = outcome /\
  choose_simple_replacement_mode w = outcome /\
  choose_spotdl_download w = outcome.
Proof.
  intros Hjunk outcome.
  assert (input_loop yes_or_default_no w = outcome) as Hloop.
  { rewrite (input_loop_skip_all _ _ (stdin w) []);
      [by apply input_loop_nil| |by rewrite app_nil_r].
    eapply Forall_impl; [exact Hjunk|].
    intros s (Hne & Hy & Hn) w'. by apply yes_or_default_no_unrecognised. }
  split; [|by repeat split].
  unfold choose_continue.
  rewrite (input_loop_skip_all _ _ (stdin w) []);
    [by apply input_loop_nil| |by rewrite app_nil_r].
  eapply Forall_impl; [exact Hjunk|].
  intros s (Hne & Hy & Hn) w'.
  rewrite (truthy_str_nonempty _ Hne).
  by rewrite (proj2 (String.eqb_neq _ _) Hy), (proj2 (String.eqb_neq _ _) Hn).
Qed.

Lemma X11_witness :
  choose_dry_run (H := Sample.externals Sample.catalog)
    (Sample.world ["maybe"; "yes"])
  = (set_stdin [] (Sample.world ["maybe"; "yes"]), Raise EOFError).
Proof.
  apply (X11_questions_end_of_input (H := Sample.externals Sample.catalog)
           (Sample.world ["maybe"; "yes"])).
  repeat (constructor;
          [split; [discriminate|];
           split; intros Heq; vm_compute in Heq; discriminate Heq|]).
  constructor.
Defined.

(** ** The commit, call by call *)

Lemma print_each_run (line : Audio.t -> Line) (items : list Audio.t)
    (w : World) :
  print_each line items w = (add_stdout (line <$> items) w, Ok tt).
Proof.
  unfold print_each. revert w.
  induction items as [|item items IH]; intros w; cbn [for_each].
  - by rewrite add_stdout_nil.
  - rewrite M_bind_run. cbn [print]. by rewrite IH, add_stdout_add_stdout.
Qed.

Section commit_more.
Context `{Externals}.

Lemma spotdl_download_run (items : list Audio.t) (w : World) :
  exists w',
    spotdl_download items w = (w', Ok tt) /\
    playlists w' = playlists w /\
    stdin w' = stdin w /\
    calls w' = calls w ++ pip_install_call :: (spotdl_call <$> items).
Proof.
  unfold spotdl_download. rewrite M_bind_run. cbn [subprocess_run].
  rewrite M_bind_run.
  assert (forall w0,
    exists w1,
      for_each (fun (_ : unit) item =>
                  let query := format_str (artist item) +:+ " - "
                               +:+ Audio.title item in
                  print (searching_for query);;
                  subprocess_run ["spotdl"; "download"; query]) tt items w0
      = (w1, Ok tt) /\
      playlists w1 = playlists w0 /\ stdin w1 = stdin w0 /\
      calls w1 = calls w0 ++ (spotdl_call <$> items)) as Hloop.
  { induction items as [|item items IH]; intros w0; cbn [for_each].
    - exists w0. by rewrite app_nil_r.
    - rewrite M_bind_run, M_bind_run. cbn [print subprocess_run].
      destruct (IH (add_call (spotdl_call item)
                      (add_stdout
                         [searching_for
                            (format_str (artist item) +:+ " - "
                             +:+ Audio.title item)] w0)))
        as (w1 & Hrun & Hpl & Hin & Hcalls).
      exists w1. split; [exact Hrun|]. split; [done|]. split; [done|].
      rewrite Hcalls. cbn. by rewrite <- app_assoc. }
  destruct (Hloop (add_call pip_install_call w))
    as (w1 & Hrun & Hpl & Hin & Hcalls).
  unfold pip_install_call in Hrun. rewrite Hrun.
  cbn [print]. eexists. split; [reflexivity|].
  cbn. rewrite Hpl, Hin, Hcalls. cbn. by rewrite <- app_assoc.
Qed.
End commit_more.

(** X12. The commit calls the server in a fixed order and with the lists
    of the scan: [removeItems] with [items_to_remove] if that list is not
    empty, then [addItems] with [items_to_add] if that list is not empty,
    each once at most.  What follows is nothing, or the installation of
    spotdl and one spotdl download for each track of [items_ommited], in
    order. *)
Theorem X12_commit_calls `{Externals}
    (playlist : nat) (title : string) (b : Batch) (w : World) :
  let removal :=
    match items_to_remove b with
    | [] => []
    | _ => [Call_removeItems playlist (items_to_remove b)]
    end in
  let addition :=
    match items_to_add b with
    | [] => []
    | _ => [Call_addItems playlist (items_to_add b)]
    end in
  exists downloads,
    calls (commit playlist title b w).1
    = calls w ++ removal ++ addition ++ downloads /\
    (downloads = [] \/
     downloads = pip_install_call :: (spotdl_call <$> items_ommited b)).
Proof.
  intros removal addition. unfold commit.
  rewrite M_bind_run.
  set (w1 := ((if negb (length (items_to_remove b) =? 0)%nat
               then removeItems playlist (items_to_remove b);;
                    print tracks_removed;;
                    print_each removed (items_to_remove b)
               else mret tt) w).1).
  assert ((if negb (length (items_to_remove b) =? 0)%nat
           then removeItems playlist (items_to_remove b);;
                print tracks_removed;;
                print_each removed (items_to_remove b)
           else mret tt) w = (w1, Ok tt) /\
          calls w1 = calls w ++ removal) as [-> Hw1].
  { subst w1 removal. destruct (items_to_remove b) as [|x l].
    - cbn. by rewrite app_nil_r.
    - cbn [length Nat.eqb negb]. repeat (rewrite M_bind_run; cbn [removeItems print]).
      by rewrite !print_each_run. }
  rewrite M_bind_run.
  set (w2 := ((if negb (length (items_to_add b) =? 0)%nat
               then addItems playlist (items_to_add b);;
                    print tracks_added;;
                    print_each added (items_to_add b)
               else mret tt) w1).1).
  assert ((if negb (length (items_to_add b) =? 0)%nat
           then addItems playlist (items_to_add b);;
                print tracks_added;;
                print_each added (items_to_add b)
           else mret tt) w1 = (w2, Ok tt) /\
          calls w2 = calls w1 ++ addition) as [-> Hw2].
  { subst w2 addition. destruct (items_to_add b) as [|x l].
    - cbn. by rewrite app_nil_r.
    - cbn [length Nat.eqb negb]. repeat (rewrite M_bind_run; cbn [addItems print]).
      by rewrite !print_each_run. }
  rewrite M_bind_run.
  set (w3 := ((if negb (length (items_ommited b) =? 0)%nat
               then print tracks_not_upgraded;;
                    print_each not_upgraded (items_ommited b)
               else mret tt) w2).1).
  assert ((if negb (length (items_ommited b) =? 0)%nat
           then print tracks_not_upgraded;;
                print_each not_upgraded (items_ommited b)
           else mret tt) w2 = (w3, Ok tt) /\
          calls w3 = calls w2) as [-> Hw3].
  { subst w3. destruct (items_ommited b) as [|x l].
    - done.
    - cbn [length Nat.eqb negb]. repeat (rewrite M_bind_run; cbn [print]).
      by rewrite !print_each_run. }
  rewrite M_bind_run. cbn [print]. rewrite M_bind_run.
  destruct (choose_spotdl_download_reads_only
              (add_stdout [upgraded title] w3)) as (inp & r & ->).
  destruct r as [[|]|e].
  - destruct (spotdl_download_run (items_ommited b)
                (set_stdin inp (add_stdout [upgraded title] w3)))
      as (w4 & -> & _ & _ & Hw4).
    exists (pip_install_call :: (spotdl_call <$> items_ommited b)).
    split; [|by right].
    cbn [fst]. rewrite Hw4. cbn [calls set_stdin add_stdout].
    by rewrite Hw3, Hw2, Hw1, <- !app_assoc.
  - exists []. split; [|by left].
    cbn. by rewrite Hw3, Hw2, Hw1, app_nil_r, <- !app_assoc.
  - exists []. split; [|by left].
    cbn. by rewrite Hw3, Hw2, Hw1, app_nil_r, <- !app_assoc.
Qed.

(** ** A playlist with nothing to upgrade *)

Section nothing_to_upgrade.
Context `{Externals}.

End nothing_to_upgrade.



(** ** A scan that fails *)

(** X14. When the scan of the playlist raises an exception (a track
    that cannot be compared, a failing search, the end of the input in the
    manual mode), [upgrade_playlist] raises it and commits nothing: no
    [removeItems], [addItems] or download call is made and the playlists
    are as before.  A run that duplicates has by then created the copy,
    which is left behind with the tracks of the original. *)
Theorem X14_failed_scan_commits_nothing `{Externals}
    (config : PlexConfig) (playlist : nat) (duplicate simple_mode dry : bool)
    (pl : Playlist.t) (e : exn) (w : World) :
  playlists w !! playlist = Some pl ->
  (scan config simple_mode (Playlist.items pl) w).2 = Raise e ->
  let run := upgrade_playlist config playlist duplicate simple_mode dry w in
  let title := "Copy of " +:+ Playlist.title pl in
  run.2 = Raise e /\
  if duplicate && negb dry then
    playlists run.1
    = playlists w ++ [Playlist.Build title (Playlist.summary pl)
                        (Playlist.playlistType pl) false (Playlist.items pl)]
    /\ calls run.1
       = calls w ++ [Call_create title (Playlist.summary pl)
                       (Playlist.items pl) (Playlist.playlistType pl)]
  else playlists run.1 = playlists w /\ calls run.1 = calls w.
Proof.
  intros Hpl Hscan run title. subst run.
  destruct dry.
  - rewrite andb_false_r, upgrade_playlist_dry, Hpl.
    destruct (scan_footprint config simple_mode (Playlist.items pl) w)
      as (inp & out & r & Hrun).
    rewrite Hrun in Hscan |- *. cbn in Hscan. subst r. done.
  - destruct duplicate; cbn [andb negb].
    + rewrite (upgrade_playlist_duplicate _ _ _ _ _ Hpl).
      fold title.
      set (w1 := add_stdout [created title]
                   (Playlist_create title (Playlist.summary pl)
                      (Playlist.items pl) (Playlist.playlistType pl) w).1).
      rewrite upgrade_playlist_in_place.
      assert (playlists w1 !! length (playlists w)
              = Some (Playlist.Build title (Playlist.summary pl)
                        (Playlist.playlistType pl) false (Playlist.items pl)))
        as ->.
      { subst w1. cbn. rewrite lookup_app_r by lia.
        by rewrite Nat.sub_diag. }
      cbn [Playlist.items Playlist.title].
      destruct (kc_scan config simple_mode (Playlist.items pl) w w1 eq_refl)
        as (inp & out & r & Hrun & ->).
      rewrite Hrun in Hscan. cbn in Hscan. subst r. done.
    + rewrite upgrade_playlist_in_place, Hpl.
      destruct (scan_footprint config simple_mode (Playlist.items pl) w)
        as (inp & out & r & Hrun).
      rewrite Hrun in Hscan |- *. cbn in Hscan. subst r. done.
Qed.

Lemma X14_witness :
  let w := tape_world [] in
  let run := upgrade_playlist (H := Sample.externals Sample.catalog)
               Sample.default_config 0 true true false w in
  run.2 = Raise TypeError /\
  playlists run.1
  = [tapes; Playlist.Build "Copy of Tapes" None "audio" false
              [Sample.song; tape]] /\
  calls run.1 = [Call_create "Copy of Tapes" None [Sample.song; tape] "audio"].
Proof.
  apply (X14_failed_scan_commits_nothing
           (H := Sample.externals Sample.catalog)
           Sample.default_config 0 true true false tapes TypeError
           (tape_world [])).
  - reflexivity.
  - vm_compute. reflexivity.
Defined.

(** ** The questions before the upgrade *)

(** A loop whose body only looks at the line leaves a suffix of the
    input, and fails at the end of the input only. *)
Lemma input_loop_consumes {A} (body : string -> M (option A)) (w : World) :
  (forall s, exists o, forall w', body s w' = (w', Ok o)) ->
  exists inp r,
    input_loop body w = (set_stdin inp w, r) /\
    inp `suffix_of` stdin w /\
    (r = Raise EOFError \/ exists a, r = Ok a).
Proof.
  intros Hbody. unfold input_loop.
  assert (forall inp inp0,
            exists inp' r,
              input_loop_on body inp (set_stdin inp0 w)
              = (set_stdin inp' w, r) /\
              (inp' `suffix_of` inp \/ (inp' = inp0 /\ inp = [])) /\
              (r = Raise EOFError \/ exists a, r = Ok a)) as Hloop.
  { induction inp as [|s rest IH]; intros inp0; cbn.
    - exists inp0, (Raise EOFError). split; [done|]. split; [by right|by left].
    - destruct (Hbody s) as [o Ho]. rewrite Ho.
      destruct o as [a|].
      + exists rest, (Ok a). split; [done|].
        split; [left; by apply suffix_cons_r|right; by exists a].
      + destruct (IH rest) as (inp' & r & Hrun & Hsuffix & Hr).
        exists inp', r. split; [exact Hrun|]. split; [|exact Hr].
        left. destruct Hsuffix as [Hsuffix|[-> ->]].
        * by apply suffix_cons_r.
        * by apply suffix_cons_r. }
  destruct (Hloop (stdin w) (stdin w)) as (inp' & r & Hrun & Hsuffix & Hr).
  rewrite set_stdin_stdin in Hrun. exists inp', r.
  split; [exact Hrun|]. split; [|exact Hr].
  by destruct Hsuffix as [Hsuffix|[-> _]].
Qed.

Section main_facts.
Context `{Externals}.

Lemma yes_or_default_no_loop (w : World) (junk rest : list string)
    (answer : string) :
  stdin w = junk ++ answer :: rest ->
  Forall (fun s => s <> "" /\ lower s <> "y" /\ lower s <> "n") junk ->
  answer = "" \/ lower answer = "y" \/ lower answer = "n" ->
  input_loop yes_or_default_no w
  = (set_stdin rest w, Ok (String.eqb (lower answer) "y")).
Proof.
  intros Hin Hjunk Hanswer.
  rewrite (input_loop_skip_all _ _ junk (answer :: rest)); [| |done].
  - rewrite (input_loop_leave _ _ answer rest
               (String.eqb (lower answer) "y")); [done| |done].
    intros w'. by apply yes_or_default_no_recognised.
  - eapply Forall_impl; [exact Hjunk|].
    intros s (Hne & Hy & Hn) w'. by apply yes_or_default_no_unrecognised.
Qed.

Lemma question_consumes (w : World) :
  exists inp r,
    input_loop yes_or_default_no w = (set_stdin inp w, r) /\
    inp `suffix_of` stdin w /\
    (r = Raise EOFError \/ exists a, r = Ok a).
Proof. apply input_loop_consumes, yes_or_default_no_pure. Qed.

Lemma set_stdin_set_stdin (inp inp' : list string) (w : World) :
  set_stdin inp' (set_stdin inp w) = set_stdin inp' w.
Proof. reflexivity. Qed.
End main_facts.

(** X15. When the answer to the question of the dry run is yes, the
    script asks neither for the replacement mode nor for the duplication:
    it runs [upgrade_playlist] in simple mode, without duplicating, on the
    input that follows the answer, and the run changes no playlist and
    makes no call. *)
Theorem X15_main_dry_run `{Externals}
    (config : PlexConfig) (playlist : nat) (w : World)
    (junk rest : list string) (answer : string) :
  stdin w = junk ++ answer :: rest ->
  Forall (fun s => s <> "" /\ lower s <> "y" /\ lower s <> "n") junk ->
  lower answer = "y" ->
  let run := main_upgrade config playlist w in
  run = upgrade_playlist config playlist false true true (set_stdin rest w) /\
  playlists run.1 = playlists w /\
  calls run.1 = calls w /\
  stdin run.1 = rest.
Proof.
  intros Hin Hjunk Hanswer run.
  assert (run = upgrade_playlist config playlist false true true
                  (set_stdin rest w)) as Hrun.
  { subst run. unfold main_upgrade, choose_dry_run.
    rewrite M_bind_run,
      (yes_or_default_no_loop w junk rest answer Hin Hjunk
         (or_intror (or_introl Hanswer))).
    rewrite Hanswer. cbn [String.eqb Ascii.eqb Bool.eqb].
    by rewrite !M_bind_run. }
  split; [exact Hrun|]. rewrite Hrun, upgrade_playlist_dry.
  cbn [playlists set_stdin].
  destruct (playlists w !! playlist) as [pl|]; [|done].
  pose proof (scan_simple_stdin config (Playlist.items pl) (set_stdin rest w))
    as Hstdin.
  destruct (scan_footprint config true (Playlist.items pl) (set_stdin rest w))
    as (inp & out & r & Hscan).
  unfold unchanged in Hstdin. rewrite Hscan in Hstdin |- *.
  cbn in Hstdin. by destruct r.
Qed.

Lemma X15_witness :
  let w := Sample.world ["dry?"; "Y"; "n"] in
  let run := main_upgrade (H := Sample.externals Sample.catalog)
               Sample.default_config 0 w in
  run = upgrade_playlist (H := Sample.externals Sample.catalog)
          Sample.default_config 0 false true true (set_stdin ["n"] w) /\
  playlists run.1 = playlists w /\
  calls run.1 = calls w /\
  stdin run.1 = ["n"].
Proof.
  apply (X15_main_dry_run (H := Sample.externals Sample.catalog)
           Sample.default_config 0 (Sample.world ["dry?"; "Y"; "n"])
           ["dry?"] ["n"] "Y").
  - reflexivity.
  - constructor; [|constructor].
    split; [discriminate|].
    split; intros Heq; vm_compute in Heq; discriminate Heq.
  - reflexivity.
Defined.

(** X16. Before the upgrade the script only reads the keyboard: either
    the input ends during the questions and EOFError is raised, or
    [upgrade_playlist] is run on what is left of the input, and then never
    as a dry run in manual mode or as a dry run that duplicates. *)
Theorem X16_main_upgrade_flags `{Externals}
    (config : PlexConfig) (playlist : nat) (w : World) :
  exists inp,
    inp `suffix_of` stdin w /\
    (main_upgrade config playlist w = (set_stdin inp w, Raise EOFError) \/
     exists duplicate simple_mode dry,
       main_upgrade config playlist w
       = upgrade_playlist config playlist duplicate simple_mode dry
           (set_stdin inp w) /\
       (dry = true -> simple_mode = true /\ duplicate = false)).
Proof.
  unfold main_upgrade, choose_dry_run, choose_simple_replacement_mode,
    choose_duplication.
  destruct (question_consumes w) as (inp1 & r1 & Hq1 & Hs1 & Hr1).
  rewrite M_bind_run, Hq1.
  destruct Hr1 as [->|[dry ->]]; [exists inp1; split; [done|by left]|].
  destruct dry.
  { exists inp1. split; [done|]. right. exists false, true, true.
    by rewrite !M_bind_run. }
  destruct (question_consumes (set_stdin inp1 w))
    as (inp2 & r2 & Hq2 & Hs2 & Hr2).
  rewrite M_bind_run, Hq2, set_stdin_set_stdin. cbn [stdin set_stdin] in Hs2.
  destruct Hr2 as [->|[simple_mode ->]].
  { exists inp2. split; [by etrans|by left]. }
  destruct (question_consumes (set_stdin inp2 w))
    as (inp3 & r3 & Hq3 & Hs3 & Hr3).
  rewrite M_bind_run, Hq3, set_stdin_set_stdin. cbn [stdin set_stdin] in Hs3.
  exists inp3. split; [by do 2 (etrans; [eassumption|])|].
  destruct Hr3 as [->|[duplicate ->]]; [by left|].
  right. by exists duplicate, simple_mode, false.
Qed.

(** ** The playlists offered after an upgrade *)






(** ** The text of a duration *)

Lemma str_int_digits (n : Z) :
  0 <= n ->
  exists d, DecimalString.NilEmpty.uint_of_string (str_int n) = Some d /\
            Z.of_uint d = n.
Proof.
  intros Hn. destruct n as [|p|p]; [by eexists|..|lia].
  unfold str_int. cbn [Z.to_int DecimalString.NilZero.string_of_int].
  exists (Pos.to_uint p). split.
  - unfold DecimalString.NilZero.string_of_uint.
    pose proof (DecimalPos.Unsigned.to_uint_nonnil p) as Hnil.
    destruct (Pos.to_uint p) eqn:Hp; try done;
      rewrite <- Hp; apply DecimalString.NilEmpty.usu.
  - unfold Z.of_uint. by rewrite DecimalPos.Unsigned.of_to.
Qed.

Lemma zeros_digits (k : nat) (s : string) (d : Decimal.uint) :
  DecimalString.NilEmpty.uint_of_string s = Some d ->
  exists d', DecimalString.NilEmpty.uint_of_string (zeros k +:+ s) = Some d' /\
             Z.of_uint d' = Z.of_uint d.
Proof.
  intros Hs. induction k as [|k (d' & Hd' & Hvalue)]; [by exists d|].
  exists (Decimal.D0 d'). split; [|done].
  change (zeros (S k) +:+ s) with (String "0" (zeros k +:+ s)).
  cbn [DecimalString.NilEmpty.uint_of_string]. by rewrite Hd'.
Qed.

Lemma digits_not_minus (s : string) (d : Decimal.uint) :
  DecimalString.NilEmpty.uint_of_string s = Some d ->
  numeral_value s = digits_value s.
Proof.
  destruct s as [|a s]; [done|]. intros Hs.
  unfold numeral_value.
  destruct (decide (a = "-"%char)) as [->|Hne].
  - cbn in Hs. by destruct (DecimalString.NilEmpty.uint_of_string s).
  - destruct a as [[] [] [] [] [] [] [] []]; try done.
Qed.

Lemma numeral_value_format_0d (width : nat) (n : Z) :
  numeral_value (format_0d width n) = n.
Proof.
  unfold format_0d. destruct (Z.ltb_spec n 0) as [Hneg|Hpos].
  - destruct (str_int_digits (- n)) as (d & Hd & Hvalue); [lia|].
    destruct (zeros_digits (width - 1 - String.length (str_int (- n)))
                _ _ Hd) as (d' & Hd' & Hvalue').
    change ("-" +:+ ?s) with (String "-" s).
    cbn [numeral_value]. unfold digits_value. rewrite Hd'. lia.
  - destruct (str_int_digits n) as (d & Hd & Hvalue); [lia|].
    destruct (zeros_digits (width - String.length (str_int n))
                _ _ Hd) as (d' & Hd' & Hvalue').
    rewrite (digits_not_minus _ _ Hd'). unfold digits_value.
    rewrite Hd'. lia.
Qed.

Lemma string_length_app (s1 s2 : string) :
  String.length (s1 +:+ s2) = (String.length s1 + String.length s2)%nat.
Proof.
  induction s1 as [|a s1 IH]; [done|].
  change (String a s1 +:+ s2) with (String a (s1 +:+ s2)).
  cbn [String.length]. by rewrite IH.
Qed.

Lemma string_app_inj (s1 s1' s2 s2' : string) :
  String.length s1 = String.length s1' ->
  s1 +:+ s2 = s1' +:+ s2' -> s1 = s1' /\ s2 = s2'.
Proof.
  revert s1'. induction s1 as [|a s1 IH]; intros [|a' s1'] Hlen Heq;
    try done.
  change (String a (s1 +:+ s2) = String a' (s1' +:+ s2')) in Heq.
  injection Heq as -> Heq. injection Hlen as Hlen.
  destruct (IH s1' Hlen Heq) as [-> ->]. done.
Qed.

Lemma format_0d_seconds (seconds : Z) :
  0 <= seconds < 60 -> String.length (format_0d 2 seconds) = 2%nat.
Proof.
  intros Hs.
  assert (forallb (fun n => Nat.eqb (String.length (format_0d 2 (Z.of_nat n))) 2)
            (seq 0 60) = true) as Hall by (vm_compute; reflexivity).
  rewrite forallb_forall in Hall.
  specialize (Hall (Z.to_nat seconds)).
  rewrite Z2Nat.id in Hall by lia.
  apply Nat.eqb_eq, Hall, in_seq. lia.
Qed.

(** X18. The text of [duration_to_str] tells the duration to the second
    and no further: two durations are printed alike exactly when they have
    the same number of whole seconds.  The milliseconds are dropped, not
    rounded, and the minutes are not reduced to hours, so that durations of
    an hour and more stay apart. *)
Theorem X18_duration_to_str_seconds (duration duration' : Z) :
  duration_to_str duration = duration_to_str duration'
  <-> duration / 1000 = duration' / 1000.
Proof.
  unfold duration_to_str, divmod. split; [|by intros ->].
  set (t := duration / 1000). set (t' := duration' / 1000). intros Heq.
  assert (String.length (format_0d 2 (t / 60))
          = String.length (format_0d 2 (t' / 60))) as Hlen.
  { apply (f_equal String.length) in Heq.
    rewrite !string_length_app in Heq.
    rewrite (format_0d_seconds (t mod 60)),
      (format_0d_seconds (t' mod 60)) in Heq
      by (apply Z.mod_pos_bound; lia).
    lia. }
  apply (string_app_inj _ _ _ _ Hlen) in Heq as [Hminutes Hseconds].
  apply (string_app_inj ":" ":" _ _ eq_refl) in Hseconds as [_ Hseconds].
  apply (f_equal numeral_value) in Hminutes, Hseconds.
  rewrite !numeral_value_format_0d in Hminutes, Hseconds.
  rewrite (Z.div_mod t 60), (Z.div_mod t' 60) by lia. congruence.
Qed.

(** ** The manual mode at the end of the input *)

(** X19. In manual mode, when a track fails the quality check and has
    candidates, and every line left on the input is a response that is
    asked again (not empty, and not the index of a candidate), the scan of
    the track prints the track and its candidates, consumes the whole input
    and raises EOFError: nothing is recorded for the track. *)
Theorem X19_manual_end_of_input `{Externals}
    (config : PlexConfig) (b : Batch) (item : Audio.t) (w : World)
    (search_results replacements : list Audio.t) :
  check_quality_requirements config item = Ok false ->
  search item = Ok search_results ->
  rank item search_results = Ok replacements ->
  replacements <> [] ->
  Forall (fun s => s <> "" /\ int s ≫= getitem replacements = None)
    (stdin w) ->
  scan_item config false b item w
  = (add_stdout (manual_lines item replacements) (set_stdin [] w),
     Raise EOFError).
Proof.
  intros Hfails Hsearch Hrank Hne Hjunk.
  rewrite (scan_item_failing _ _ _ _ _ _ _ Hfails Hsearch Hrank).
  destruct replacements as [|first others] eqn:E; [done|].
  rewrite <- E in *. fold (manual_lines item replacements).
  rewrite (input_loop_skip_all _ _ (stdin w) []).
  - by rewrite input_loop_nil.
  - eapply Forall_impl; [exact Hjunk|].
    intros s [Hs Hbad] w'. unfold select_replacement.
    by rewrite (truthy_str_nonempty _ Hs), Hbad.
  - cbn. by rewrite app_nil_r.
Qed.

Lemma X19_witness :
  scan_item (H := Sample.externals Sample.catalog)
    Sample.default_config false no_items Sample.song
    (Sample.world ["two"; "7"])
  = (add_stdout
       (manual_lines Sample.song
          [Sample.song_flac; Sample.song_320; Sample.song_feat])
       (set_stdin [] (Sample.world ["two"; "7"])),
     Raise EOFError).
Proof.
  apply (X19_manual_end_of_input (H := Sample.externals Sample.catalog)
           Sample.default_config no_items Sample.song
           (Sample.world ["two"; "7"])
           [Sample.song; Sample.song_320; Sample.song_192; Sample.song_feat;
            Sample.song_flac]
           [Sample.song_flac; Sample.song_320; Sample.song_feat]).
  - reflexivity.
  - vm_compute. reflexivity.
  - vm_compute. reflexivity.
  - discriminate.
  - repeat (constructor; [split; [discriminate|vm_compute; reflexivity]|]).
    constructor.
Defined.

(** ** A track without an artist *)

(** X20. A track that fails the quality check and has neither an album
    artist nor a track artist (the track artist absent or empty) cannot be
    searched for: the substitution on its artist raises TypeError.  In
    both modes the scan of the track prints that the track must be upgraded
    and raises, and records nothing. *)
Theorem X20_track_without_artist `{Externals}
    (config : PlexConfig) (simple_mode : bool) (b : Batch) (item : Audio.t)
    (w : World) :
  check_quality_requirements config item = Ok false ->
  Audio.originalTitle item = None \/ Audio.originalTitle item = Some "" ->
  Audio.grandparentTitle item = None ->
  search item = Raise TypeError /\
  scan_item config simple_mode b item w
  = (add_stdout [must_be_upgraded item] w, Raise TypeError).
Proof.
  intros Hfails Htrack Halbum.
  assert (artist item = None) as Hartist.
  { unfold artist. by destruct Htrack as [->| ->]. }
  assert (search item = Raise TypeError) as Hsearch.
  { unfold search. by rewrite Hartist. }
  split; [exact Hsearch|].
  unfold scan_item. rewrite M_bind_run. unfold lift at 1.
  rewrite Hfails. cbn [negb]. rewrite M_bind_run. cbn [print].
  rewrite M_bind_run. unfold lift at 1. by rewrite Hsearch.
Qed.

Lemma X20_witness :
  let noise := Audio.Build 10 "Noise" (Some "") None
                 (Media.Build (Some "mp3") (Some 128)) in
  search (H := Sample.externals Sample.catalog) noise = Raise TypeError /\
  scan_item (H := Sample.externals Sample.catalog)
    Sample.default_config true no_items noise (Sample.world [])
  = (add_stdout [must_be_upgraded noise] (Sample.world []), Raise TypeError).
Proof.
  apply (X20_track_without_artist (H := Sample.externals Sample.catalog)
           Sample.default_config true no_items
           (Audio.Build 10 "Noise" (Some "") None
              (Media.Build (Some "mp3") (Some 128)))
           (Sample.world [])).
  - reflexivity.
  - by right.
  - reflexivity.
Defined.

(** ** Logging in *)

Section login_facts.
Context `{MyPlex}.

Lemma login_Some (username password : string) (out : list LoginLine)
    (account : Account) :
  login username password = (out, Some account) ->
  MyPlexAccount username password = inr account /\
  out = [your_authentication_token (authenticationToken account)].
Proof.
  unfold login. destruct (MyPlexAccount username password) as [f|a];
    intros [= <- <-]; done.
Qed.

Lemma prompt_login_granted (inp : list string) :
  let '(rest, out, r) := prompt_login inp in
  match r with
  | Ok account =>
      exists before username password,
        inp = before ++ username :: password :: rest /\
        MyPlexAccount username password = inr account /\
        last out = Some (your_authentication_token
                           (authenticationToken account))
  | Raise e => e = EOFError /\ rest = []
  end.
Proof.
  assert (forall n inp, (length inp <= n)%nat ->
            let '(rest, out, r) := prompt_login inp in
            match r with
            | Ok account =>
                exists before username password,
                  inp = before ++ username :: password :: rest /\
                  MyPlexAccount username password = inr account /\
                  last out = Some (your_authentication_token
                                     (authenticationToken account))
            | Raise e => e = EOFError /\ rest = []
            end) as Hind; [|by apply (Hind (length inp))].
  clear inp. induction n as [|n IH]; intros [|username [|password inp]] Hlen;
    cbn in Hlen; try lia; try done.
  cbn [prompt_login].
  destruct (login username password) as [out [account|]] eqn:Hlogin.
  - apply login_Some in Hlogin as [Hgranted ->].
    by exists [], username, password.
  - specialize (IH inp ltac:(lia)).
    destruct (prompt_login inp) as [[rest out'] [account|e]]; [|done].
    destruct IH as (before & u & p & -> & Hgranted & Hlast).
    exists (username :: password :: before), u, p.
    split; [done|]. split; [done|].
    rewrite app_comm_cons, last_app, Hlast. done.
Qed.
End login_facts.

(** X22. [get_account] answers only an account that the server granted:
    to the token of the configuration, and then nothing is printed and
    nothing read; or to a user name and a password, which are those of the
    configuration or two consecutive lines of the input, the last ones
    read, and then the last line printed is the token of the account.  It
    raises nothing but EOFError, when the input is used up. *)
Theorem X22_get_account_granted `{MyPlex}
    (config : PlexConfig) (inp : list string) :
  let '(rest, out, r) := get_account config inp in
  match r with
  | Ok account =>
      (exists token,
         config !! "auth.server_token" = Some token /\
         MyPlexAccount_token token = inr account /\
         rest = inp /\ out = []) \/
      (exists username password,
         MyPlexAccount username password = inr account /\
         last out = Some (your_authentication_token
                            (authenticationToken account)) /\
         ((config !! "auth.myplex_username" = Some username /\
           config !! "auth.myplex_password" = Some password /\
           rest = inp) \/
          exists before, inp = before ++ username :: password :: rest))
  | Raise e => e = EOFError /\ rest = []
  end.
Proof.
  unfold get_account.
  destruct (token_login config) as [out [account|]] eqn:Htoken.
  { left. unfold token_login in Htoken.
    destruct (config !! "auth.server_token") as [token|]; [|done].
    destruct (truthy_str (Some token)); [|done].
    destruct (MyPlexAccount_token token) as [f|a] eqn:Hlogin; [done|].
    injection Htoken as <- <-. by exists token. }
  destruct (stored_login config) as [out' [account|]] eqn:Hstored.
  { right. unfold stored_login in Hstored.
    destruct (config !! "auth.myplex_username") as [username|]; [|done].
    destruct (config !! "auth.myplex_password") as [password|]; [|done].
    destruct (_ && _); [|done].
    apply login_Some in Hstored as [Hgranted ->].
    exists username, password. split; [done|].
    split; [by rewrite last_snoc|by left]. }
  pose proof (prompt_login_granted inp) as Hprompt.
  destruct (prompt_login inp) as [[rest out''] [account|e]]; [|done].
  destruct Hprompt as (before & username & password & -> & Hgranted & Hlast).
  right. exists username, password. split; [done|].
  split; [|right; by exists before].
  rewrite !last_app, Hlast. done.
Qed.

(** X23. Without a token and a user name in the configuration,
    [get_account] asks for a user name and a password until the server
    accepts a pair: each rejected pair costs two lines of input and is
    answered by the line of its failure, and the account of the first
    accepted pair is returned with the input that follows it. *)
Theorem X23_get_account_prompts `{MyPlex}
    (config : PlexConfig) (attempts : list (string * string * LoginFailure))
    (username password : string) (rest : list string) (account : Account) :
  config !! "auth.server_token" = None ->
  config !! "auth.myplex_username" = None ->
  Forall (fun a => MyPlexAccount a.1.1 a.1.2 = inl a.2) attempts ->
  MyPlexAccount username password = inr account ->
  get_account config
    ((attempts ≫= fun a => [a.1.1; a.1.2]) ++ username :: password :: rest)
  = (rest,
     (attempts ≫= fun a => [provide_credentials; failure_line a.2])
     ++ [provide_credentials;
         your_authentication_token (authenticationToken account)],
     Ok account).
Proof.
  intros Htoken Huser Hfail Hgranted.
  unfold get_account, token_login, stored_login. rewrite Htoken, Huser.
  cbn [app].
  induction Hfail as [|[[u p] f] attempts Hup _ IH].
  - cbn. unfold login. by rewrite Hgranted.
  - cbn [mbind list_bind app fst snd] in *.
    change (prompt_login (u :: p :: ?l)) with
      (match login u p with
       | (out, Some account) => (l, provide_credentials :: out, Ok account)
       | (out, None) =>
           let '(rest', out', r) := prompt_login l in
           (rest', provide_credentials :: out ++ out', r)
       end).
    destruct (prompt_login _) as [[rest' out'] r].
    injection IH as -> -> ->.
    unfold login. by rewrite Hup.
Qed.

Lemma X23_witness :
  get_account (H := one_user) ∅ ["bob"; "secret"; "alice"; "secret"; "y"]
  = (["y"],
     [provide_credentials; invalid_login; provide_credentials;
      your_authentication_token "token of alice"],
     Ok ("alice" : @Account one_user)).
Proof.
  apply (X23_get_account_prompts (H := one_user) ∅
           [("bob", "secret", Unauthorized)]
           "alice" "secret" ["y"] "alice").
  - reflexivity.
  - reflexivity.
  - constructor; [|constructor]. reflexivity.
  - reflexivity.
Defined.

(** ** The artist of a track and the key of the first sort *)

(** X21. The artist that [artist] derives for a track and the key by
    which the candidates are sorted are the same value, except for a track
    whose [originalTitle] is the empty string: there the key is the empty
    string and the artist is the album artist.  The artist of a track is
    empty only when the album artist is. *)
Theorem X21_artist_and_sort_key (x : Audio.t) :
  (artist_sort_key x = artist x
   <-> Audio.originalTitle x <> Some ""
       \/ Audio.grandparentTitle x = Some "") /\
  (Audio.originalTitle x = Some "" ->
   artist_sort_key x = Some "" /\ artist x = Audio.grandparentTitle x) /\
  (artist x = Some "" -> Audio.grandparentTitle x = Some "").
Proof.
  unfold artist, artist_sort_key.
  destruct (Audio.originalTitle x) as [[|c s]|]; cbn.
  - split; [|done]. split.
    + intros Heq. by right.
    + intros [Hne| ->]; done.
  - split; [|done]. split; [|done]. intros _. by left.
  - split; [|done]. split; [|done]. intros _. by left.
Qed.

Lemma X21_witness :
  artist_sort_key Sample.song_untitled = Some "" /\
  artist Sample.song_untitled = Audio.grandparentTitle Sample.song_untitled.
Proof.
  apply (proj1 (proj2 (X21_artist_and_sort_key Sample.song_untitled))).
  reflexivity.
Defined.
